(** * corobus: the coroutine message bus of [1/corobus.cpp]

    A shallow embedding of the bus (channel table, bounded message queues,
    waiter queues, process-wide error code) and of its non-suspending
    operations, followed by the properties the specification states about
    them.

    Modelling conventions.
    - [int] values (descriptors, return codes) are [Z]; [size_t] values
      (vector indices, queue sizes, [size_limit]) are [nat]; the two
      conversions the source performs between them are written out
      ([int_of_size_t], [size_t_of_int]) for a 32-bit [int] and a 64-bit
      [size_t].
    - [std::queue] is a [list] whose head is [front()]; [push] appends.
    - [std::vector<coro_bus_channel*>] is a [list (option coro_bus_channel)]:
      every channel object is owned by exactly one slot, so the pointer
      stored in a slot is modelled by the channel value itself, [NULL] by
      [None].  A function that receives a channel pointer takes the channel
      value and returns the updated one; its caller stores it back into the
      slot the pointer was read from.
    - The coroutine runtime ([coro_wakeup], [coro_yield]) is external: calls
      to it are recorded, in order, in the [trace] of the [world].
    - The blocking forms ([coro_bus_send] and the like) suspend the calling
      coroutine and are re-entered by the scheduler; they are loops around
      the try-forms, each modelled by one run of its loop up to the return
      or the suspension.  The scheduler itself is not modelled.
    - The second source file (the same bus without broadcast and batch
      operations) is embedded in [Module Plain]. *)

From Stdlib Require Import ZArith Lia.
From stdpp Require Import base numbers list.

(** ** Data model *)

(** [struct coro *]: an opaque handle. *)
Definition coro := nat.

Record coro_bus_channel := mk_channel {
  size_limit : nat;          (* Channel max capacity. *)
  send_queue : list coro;    (* Coroutines waiting until the channel is not full. *)
  recv_queue : list coro;    (* Coroutines waiting until the channel is not empty. *)
  messages : list Z          (* Message queue (unsigned payloads). *)
}.

Record coro_bus := mk_bus {
  channels : list (option coro_bus_channel);
  broadcast_queue : list coro
}.

(** Modelled from the spec: [enum coro_bus_error_code] is declared in
    [corobus.h], which is not part of the sources; the four codes are the
    ones of the specification's error taxonomy. *)
Inductive coro_bus_error_code :=
  | CORO_BUS_ERR_NONE
  | CORO_BUS_ERR_NO_CHANNEL
  | CORO_BUS_ERR_WOULD_BLOCK
  | CORO_BUS_ERR_NOT_IMPLEMENTED.

(** Calls into the coroutine runtime. *)
Inductive event :=
  | Wakeup (c : coro)
  | Yield.

(** Everything the bus operations read or write: the bus, the static
    [global_error], and the runtime calls made so far. *)
Record world := mk_world {
  bus : coro_bus;
  global_error : coro_bus_error_code;
  trace : list event
}.

(** ** Integer conversions *)

(** [size_t] to [int]: the low 32 bits, read as a signed number. *)
Definition int_of_size_t (n : nat) : Z :=
  let z := (Z.of_nat n mod 2 ^ 32)%Z in
  if (z <? 2 ^ 31)%Z then z else (z - 2 ^ 32)%Z.

(** [int] to [size_t], as [operator[]] converts its argument. *)
Definition size_t_of_int (z : Z) : nat := Z.to_nat (z mod 2 ^ 64).

(** ** Error code *)

Definition coro_bus_errno (w : world) : coro_bus_error_code := global_error w.

Definition coro_bus_errno_set (w : world) (err : coro_bus_error_code) : world :=
  {| bus := bus w; global_error := err; trace := trace w |}.

(** ** Waiter queues *)

(** Wakes every waiter, front first, popping as it goes; returns the queue
    it leaves behind and the wake-ups performed. *)
Fixpoint wakeup_coro_queue (coro_queue : list coro) : list coro * list event :=
  match coro_queue with
  | [] => ([], [])
  | front :: rest =>
      let '(q, woken) := wakeup_coro_queue rest in
      (q, Wakeup front :: woken)
  end.

(** Returns 0 if some coroutine was woken up else 1. *)
Definition wakeup_first_and_remove_from (coro_queue : list coro)
  : Z * list coro * list event :=
  match coro_queue with
  | waiting_coro :: rest => (0%Z, rest, [Wakeup waiting_coro])
  | [] => (1%Z, [], [])
  end.

(** ** Channel primitives *)

Definition have_free_space (chan : coro_bus_channel) : bool :=
  length (messages chan) <? size_limit chan.

Definition get_chanel_from (bus : coro_bus) (channel : Z) : option coro_bus_channel :=
  if (channel <? 0)%Z then None
  else if (Z.of_nat (length (channels bus)) <=? channel)%Z then None
  else default None (channels bus !! Z.to_nat channel).

Definition send_and_wakeup_to (chan : coro_bus_channel) (data : Z)
  : coro_bus_channel * list event :=
  let msgs := messages chan ++ [data] in
  let '(_, rq, woken) := wakeup_first_and_remove_from (recv_queue chan) in
  (mk_channel (size_limit chan) (send_queue chan) rq msgs, woken).

(** Returns the value stored through [data], the updated channel, the
    updated [bus->broadcast_queue] and the wake-ups.  [front()] of an empty
    queue is undefined in the source (both callers test [messages.empty()]
    first); the model reads 0 there. *)
Definition read_and_wakeup_from (bus : coro_bus) (chan : coro_bus_channel)
  : Z * coro_bus_channel * list coro * list event :=
  let data := hd 0%Z (messages chan) in
  let msgs := tail (messages chan) in
  let '(none_woken, sq, woken) := wakeup_first_and_remove_from (send_queue chan) in
  let chan' := mk_channel (size_limit chan) sq (recv_queue chan) msgs in
  if (none_woken =? 0)%Z then (data, chan', broadcast_queue bus, woken)
  else
    let '(_, bq, woken') := wakeup_first_and_remove_from (broadcast_queue bus) in
    (data, chan', bq, woken ++ woken').

(** Writing through a channel pointer taken from slot [p], together with
    the runtime calls and the broadcast queue the callee left. *)
Definition store_chan (w : world) (p : nat) (chan : coro_bus_channel)
    (bq : list coro) (woken : list event) : world :=
  {| bus := mk_bus (<[p := Some chan]> (channels (bus w))) bq;
     global_error := global_error w;
     trace := trace w ++ woken |}.

(** ** Lifecycle *)

Definition coro_bus_new : coro_bus := mk_bus [] [].

Definition new_world : world := mk_world coro_bus_new CORO_BUS_ERR_NONE [].

(** The scan of [coro_bus_channel_open]: [i] runs over the whole table and
    [chan_desc] is overwritten at every empty slot.  The conditional
    expression has type [size_t]: at an occupied slot [chan_desc] is
    converted there and back, which leaves it as it was; at an empty slot
    [i] is converted to [int]. *)
Fixpoint open_scan (chans : list (option coro_bus_channel)) (i : nat) (chan_desc : Z) : Z :=
  match chans with
  | [] => chan_desc
  | slot :: rest =>
      open_scan rest (S i)
        (match slot with None => int_of_size_t i | Some _ => chan_desc end)
  end.

(** The same function, with the same body, is in the second source file.
    Indexing the vector out of range is undefined in the source; the model
    leaves the vector unchanged there. *)
Definition coro_bus_channel_open (w : world) (size_limit : nat) : Z * world :=
  let chan_desc := open_scan (channels (bus w)) 0 (-1)%Z in
  let '(chans, chan_desc) :=
    if (chan_desc =? -1)%Z then
      let chans := channels (bus w) ++ [None] in
      (chans, int_of_size_t (length chans - 1))
    else (channels (bus w), chan_desc) in
  let new_chan := mk_channel size_limit [] [] [] in
  (chan_desc,
   {| bus := mk_bus (<[size_t_of_int chan_desc := Some new_chan]> chans)
                    (broadcast_queue (bus w));
      global_error := global_error w;
      trace := trace w |}).

Definition coro_bus_channel_close (w : world) (channel : Z) : world :=
  match get_chanel_from (bus w) channel with
  | None => w
  | Some chan =>
      let '(_, woken_s) := wakeup_coro_queue (send_queue chan) in
      let '(_, woken_r) := wakeup_coro_queue (recv_queue chan) in
      {| bus := mk_bus (<[Z.to_nat channel := None]> (channels (bus w)))
                       (broadcast_queue (bus w));
         global_error := global_error w;
         trace := trace w ++ woken_s ++ woken_r ++ [Yield] |}
  end.

(** ** Non-blocking send and receive *)

Definition coro_bus_try_send (w : world) (channel : Z) (data : Z) : Z * world :=
  match get_chanel_from (bus w) channel with
  | None => ((-1)%Z, coro_bus_errno_set w CORO_BUS_ERR_NO_CHANNEL)
  | Some chan =>
      if negb (have_free_space chan) then
        ((-1)%Z, coro_bus_errno_set w CORO_BUS_ERR_WOULD_BLOCK)
      else
        let '(chan', woken) := send_and_wakeup_to chan data in
        (0%Z, store_chan w (Z.to_nat channel) chan' (broadcast_queue (bus w)) woken)
  end.

(** The second component is the value written through [data], if any. *)
Definition coro_bus_try_recv (w : world) (channel : Z) : Z * option Z * world :=
  match get_chanel_from (bus w) channel with
  | None => ((-1)%Z, None, coro_bus_errno_set w CORO_BUS_ERR_NO_CHANNEL)
  | Some chan =>
      match messages chan with
      | [] => ((-1)%Z, None, coro_bus_errno_set w CORO_BUS_ERR_WOULD_BLOCK)
      | _ :: _ =>
          let '(data, chan', bq, woken) := read_and_wakeup_from (bus w) chan in
          (0%Z, Some data, store_chan w (Z.to_nat channel) chan' bq woken)
      end
  end.

(** ** Broadcast *)

(** First loop of [coro_bus_try_broadcast]: [None] is the early return on a
    channel without free space; otherwise the pointers pushed to
    [alive_chans], each named by the slot it was read from. *)
Fixpoint collect_alive (chans : list (option coro_bus_channel)) (i : nat)
    (alive_chans : list nat) : option (list nat) :=
  match chans with
  | [] => Some alive_chans
  | None :: rest => collect_alive rest (S i) alive_chans
  | Some chan :: rest =>
      if negb (have_free_space chan) then None
      else collect_alive rest (S i) (alive_chans ++ [i])
  end.

(** Body of the second loop, for the pointer read from slot [p]. *)
Definition broadcast_to (data : Z) (w : world) (p : nat) : world :=
  match channels (bus w) !! p with
  | Some (Some chan) =>
      let '(chan', woken) := send_and_wakeup_to chan data in
      store_chan w p chan' (broadcast_queue (bus w)) woken
  | _ => w
  end.

Definition coro_bus_try_broadcast (w : world) (data : Z) : Z * world :=
  match collect_alive (channels (bus w)) 0 [] with
  | None => ((-1)%Z, coro_bus_errno_set w CORO_BUS_ERR_WOULD_BLOCK)
  | Some [] => ((-1)%Z, coro_bus_errno_set w CORO_BUS_ERR_NO_CHANNEL)
  | Some alive_chans => (0%Z, fold_left (broadcast_to data) alive_chans w)
  end.

(** ** Vectorised send and receive *)

(** The loop of [coro_bus_try_send_v]; [n] is [count - i], so that [i < count]
    is [n] being a successor.  Returns the final [i], the channel and the
    wake-ups. *)
Fixpoint send_v_loop (data : list Z) (n i : nat) (chan : coro_bus_channel)
  : nat * coro_bus_channel * list event :=
  match n with
  | 0 => (i, chan, [])
  | S n' =>
      if have_free_space chan then
        let '(chan1, woken1) := send_and_wakeup_to chan (data !!! i) in
        let '(i', chan2, woken2) := send_v_loop data n' (S i) chan1 in
        (i', chan2, woken1 ++ woken2)
      else (i, chan, [])
  end.

Definition coro_bus_try_send_v (w : world) (channel : Z) (data : list Z) (count : nat)
  : Z * world :=
  match get_chanel_from (bus w) channel with
  | None => ((-1)%Z, coro_bus_errno_set w CORO_BUS_ERR_NO_CHANNEL)
  | Some chan =>
      let '(i, chan', woken) := send_v_loop data count 0 chan in
      let w' := store_chan w (Z.to_nat channel) chan' (broadcast_queue (bus w)) woken in
      if i =? 0 then ((-1)%Z, coro_bus_errno_set w' CORO_BUS_ERR_WOULD_BLOCK)
      else (int_of_size_t i, w')
  end.

(** The loop of [coro_bus_try_recv_v]; [n] is [capacity - i].  Returns the
    final [i], the values written to [data[0..i)], the bus (its broadcast
    queue may have been popped), the channel and the wake-ups. *)
Fixpoint recv_v_loop (n i : nat) (bus : coro_bus) (chan : coro_bus_channel)
  : nat * list Z * coro_bus * coro_bus_channel * list event :=
  match n with
  | 0 => (i, [], bus, chan, [])
  | S n' =>
      match messages chan with
      | [] => (i, [], bus, chan, [])
      | _ :: _ =>
          let '(v, chan1, bq, woken1) := read_and_wakeup_from bus chan in
          let bus1 := mk_bus (channels bus) bq in
          let '(i', out, bus2, chan2, woken2) := recv_v_loop n' (S i) bus1 chan1 in
          (i', v :: out, bus2, chan2, woken1 ++ woken2)
      end
  end.

Definition coro_bus_try_recv_v (w : world) (channel : Z) (capacity : nat)
  : Z * list Z * world :=
  match get_chanel_from (bus w) channel with
  | None => ((-1)%Z, [], coro_bus_errno_set w CORO_BUS_ERR_NO_CHANNEL)
  | Some chan =>
      let '(i, out, bus', chan', woken) := recv_v_loop capacity 0 (bus w) chan in
      let w' := store_chan w (Z.to_nat channel) chan' (broadcast_queue bus') woken in
      if i =? 0 then ((-1)%Z, out, coro_bus_errno_set w' CORO_BUS_ERR_WOULD_BLOCK)
      else (int_of_size_t i, out, w')
  end.

(** ** Sequences of operations *)

(** The non-suspending public operations. *)
Inductive op :=
  | OpTrySend (channel data : Z)
  | OpTryRecv (channel : Z)
  | OpTryBroadcast (data : Z)
  | OpTrySendV (channel : Z) (data : list Z) (count : nat)
  | OpTryRecvV (channel : Z) (capacity : nat)
  | OpChannelOpen (size_limit : nat)
  | OpChannelClose (channel : Z).

Definition run_op (w : world) (o : op) : world :=
  match o with
  | OpTrySend channel data => (coro_bus_try_send w channel data).2
  | OpTryRecv channel => (coro_bus_try_recv w channel).2
  | OpTryBroadcast data => (coro_bus_try_broadcast w data).2
  | OpTrySendV channel data count => (coro_bus_try_send_v w channel data count).2
  | OpTryRecvV channel capacity => (coro_bus_try_recv_v w channel capacity).2
  | OpChannelOpen size_limit => (coro_bus_channel_open w size_limit).2
  | OpChannelClose channel => coro_bus_channel_close w channel
  end.

Definition run_ops (w : world) (ops : list op) : world := fold_left run_op ops w.

(** [k] successive [coro_bus_try_send] calls, one per value, with the
    return value of each. *)
Fixpoint try_send_seq (w : world) (channel : Z) (vals : list Z) : list Z * world :=
  match vals with
  | [] => ([], w)
  | v :: rest =>
      let '(r, w1) := coro_bus_try_send w channel v in
      let '(rs, w2) := try_send_seq w1 channel rest in
      (r :: rs, w2)
  end.

(** One sender and one receiver taking turns: each value is sent, then
    received.  A round records both return values and the value received. *)
Fixpoint ping_pong (w : world) (channel : Z) (vs : list Z)
  : list (Z * Z * option Z) * world :=
  match vs with
  | [] => ([], w)
  | v :: rest =>
      let '(rs, w1) := coro_bus_try_send w channel v in
      let '(rr, out, w2) := coro_bus_try_recv w1 channel in
      let '(rounds, w3) := ping_pong w2 channel rest in
      ((rs, rr, out) :: rounds, w3)
  end.

(** ** Specification-side notions *)

(** The channel invariant of the data model. *)
Definition chan_ok (chan : coro_bus_channel) : Prop :=
  length (messages chan) ≤ size_limit chan.

Definition slot_ok (slot : option coro_bus_channel) : Prop :=
  match slot with Some chan => chan_ok chan | None => True end.

Definition bus_ok (b : coro_bus) : Prop := Forall slot_ok (channels b).

(** The first empty slot, scanning low to high (the specification's rule
    for [open]). *)
Fixpoint lowest_empty (chans : list (option coro_bus_channel)) : option nat :=
  match chans with
  | [] => None
  | None :: _ => Some 0
  | Some _ :: rest => S <$> lowest_empty rest
  end.

(** The last empty slot (what the scan of the source keeps). *)
Fixpoint highest_empty (chans : list (option coro_bus_channel)) : option nat :=
  match chans with
  | [] => None
  | slot :: rest =>
      match highest_empty rest with
      | Some j => Some (S j)
      | None => match slot with None => Some 0 | Some _ => None end
      end
  end.

(** What a dequeue wakes: the first waiting sender, else the first waiting
    broadcaster, else nobody. *)
Definition woken_by_read (b : coro_bus) (chan : coro_bus_channel) : list coro :=
  match send_queue chan with
  | s :: _ => [s]
  | [] => take 1 (broadcast_queue b)
  end.

(** Free space of a channel. *)
Definition free_space (chan : coro_bus_channel) : nat :=
  size_limit chan - length (messages chan).

(** The channel after [vals] have been pushed one by one. *)
Definition pushed (chan : coro_bus_channel) (vals : list Z) : coro_bus_channel :=
  mk_channel (size_limit chan) (send_queue chan)
             (drop (length vals) (recv_queue chan)) (messages chan ++ vals).

(** A slot after [data] has been pushed into its channel, if any, and the
    wake-up that push performs. *)
Definition push_slot (data : Z) (slot : option coro_bus_channel)
  : option coro_bus_channel :=
  (λ chan, (send_and_wakeup_to chan data).1) <$> slot.

Definition woken_slot (data : Z) (slot : option coro_bus_channel) : list event :=
  match slot with
  | Some chan => (send_and_wakeup_to chan data).2
  | None => []
  end.

(** Any interleaving of attempts on a channel of any capacity: the sender
    works through [pending] and retries a value until its send succeeds,
    the receiver appends what it receives to [received]. *)
Inductive turn := SenderTurn | ReceiverTurn.

Record transfer := mk_transfer {
  pending : list Z;
  received : list Z;
  now : world
}.

Definition attempt (channel : Z) (s : transfer) (t : turn) : transfer :=
  match t with
  | SenderTurn =>
      match pending s with
      | [] => s
      | v :: rest =>
          let '(r, w') := coro_bus_try_send (now s) channel v in
          mk_transfer (if (r =? 0)%Z then rest else pending s) (received s) w'
      end
  | ReceiverTurn =>
      let '(r, out, w') := coro_bus_try_recv (now s) channel in
      mk_transfer (pending s)
        (match out with Some v => received s ++ [v] | None => received s end) w'
  end.

(** What has been received, then what is queued, then what is still to be
    sent, is the original sequence. *)
Definition in_flight (channel : Z) (vs : list Z) (s : transfer) : Prop :=
  ∃ chan, get_chanel_from (bus (now s)) channel = Some chan
    ∧ received s ++ messages chan ++ pending s = vs.

(** ** Blocking operations *)

(** A blocking operation is a loop around its try-form.  It is modelled by
    one run of that loop from its head, for the running coroutine [self]
    (the value of [coro_this()]), up to the point where the call returns or
    [coro_suspend] is called; a coroutine that is resumed re-enters the loop
    at its head, that is, runs the same function again on the world it
    finds. *)
Inductive outcome :=
  | Returned (r : Z)
  | Suspended.

(** The push of [suspend_this_and_save_to]; its [coro_suspend] is the
    [Suspended] outcome of the caller. *)
Definition suspend_this_and_save_to (self : coro) (coro_queue : list coro) : list coro :=
  coro_queue ++ [self].

(** In the loops below the channel is looked up again before suspending;
    dereferencing [NULL] there is undefined in the source, and the model
    suspends without touching the bus. *)
Definition coro_bus_send (self : coro) (w : world) (channel data : Z) : outcome * world :=
  let '(r, w1) := coro_bus_try_send w channel data in
  if (r =? 0)%Z then (Returned 0, w1)
  else
    match coro_bus_errno w1 with
    | CORO_BUS_ERR_NO_CHANNEL => (Returned (-1), w1)
    | CORO_BUS_ERR_WOULD_BLOCK =>
        match get_chanel_from (bus w1) channel with
        | Some chan =>
            (Suspended,
             store_chan w1 (Z.to_nat channel)
               (mk_channel (size_limit chan)
                  (suspend_this_and_save_to self (send_queue chan))
                  (recv_queue chan) (messages chan))
               (broadcast_queue (bus w1)) [])
        | None => (Suspended, w1)
        end
    | _ => (Returned (-1), coro_bus_errno_set w1 CORO_BUS_ERR_NOT_IMPLEMENTED)
    end.

Definition coro_bus_recv (self : coro) (w : world) (channel : Z)
  : outcome * option Z * world :=
  let '(r, out, w1) := coro_bus_try_recv w channel in
  if (r =? 0)%Z then (Returned 0, out, w1)
  else
    match coro_bus_errno w1 with
    | CORO_BUS_ERR_NO_CHANNEL => (Returned (-1), out, w1)
    | CORO_BUS_ERR_WOULD_BLOCK =>
        match get_chanel_from (bus w1) channel with
        | Some chan =>
            (Suspended, out,
             store_chan w1 (Z.to_nat channel)
               (mk_channel (size_limit chan) (send_queue chan)
                  (suspend_this_and_save_to self (recv_queue chan))
                  (messages chan))
               (broadcast_queue (bus w1)) [])
        | None => (Suspended, out, w1)
        end
    | _ => (Returned (-1), out, coro_bus_errno_set w1 CORO_BUS_ERR_NOT_IMPLEMENTED)
    end.

Definition coro_bus_broadcast (self : coro) (w : world) (data : Z) : outcome * world :=
  let '(r, w1) := coro_bus_try_broadcast w data in
  if (r =? 0)%Z then (Returned 0, w1)
  else
    match coro_bus_errno w1 with
    | CORO_BUS_ERR_NO_CHANNEL => (Returned (-1), w1)
    | CORO_BUS_ERR_WOULD_BLOCK =>
        (Suspended,
         {| bus := mk_bus (channels (bus w1))
                     (suspend_this_and_save_to self (broadcast_queue (bus w1)));
            global_error := global_error w1;
            trace := trace w1 |})
    | _ => (Returned (-1), coro_bus_errno_set w1 CORO_BUS_ERR_NOT_IMPLEMENTED)
    end.

Definition coro_bus_send_v (self : coro) (w : world) (channel : Z) (data : list Z)
    (count : nat) : outcome * world :=
  let '(writes, w1) := coro_bus_try_send_v w channel data count in
  if (0 <? writes)%Z then (Returned writes, w1)
  else
    match coro_bus_errno w1 with
    | CORO_BUS_ERR_NO_CHANNEL => (Returned (-1), w1)
    | CORO_BUS_ERR_WOULD_BLOCK =>
        match get_chanel_from (bus w1) channel with
        | Some chan =>
            (Suspended,
             store_chan w1 (Z.to_nat channel)
               (mk_channel (size_limit chan)
                  (suspend_this_and_save_to self (send_queue chan))
                  (recv_queue chan) (messages chan))
               (broadcast_queue (bus w1)) [])
        | None => (Suspended, w1)
        end
    | _ => (Returned (-1), coro_bus_errno_set w1 CORO_BUS_ERR_NOT_IMPLEMENTED)
    end.

Definition coro_bus_recv_v (self : coro) (w : world) (channel : Z) (capacity : nat)
  : outcome * list Z * world :=
  let '(reads, out, w1) := coro_bus_try_recv_v w channel capacity in
  if (0 <? reads)%Z then (Returned reads, out, w1)
  else
    match coro_bus_errno w1 with
    | CORO_BUS_ERR_NO_CHANNEL => (Returned (-1), out, w1)
    | CORO_BUS_ERR_WOULD_BLOCK =>
        match get_chanel_from (bus w1) channel with
        | Some chan =>
            (Suspended, out,
             store_chan w1 (Z.to_nat channel)
               (mk_channel (size_limit chan) (send_queue chan)
                  (suspend_this_and_save_to self (recv_queue chan))
                  (messages chan))
               (broadcast_queue (bus w1)) [])
        | None => (Suspended, out, w1)
        end
    | _ => (Returned (-1), out, coro_bus_errno_set w1 CORO_BUS_ERR_NOT_IMPLEMENTED)
    end.

(** ** Deleting the bus *)

(** The loop of [coro_bus_delete]; [n] is [channels.size() - i] (closing a
    channel does not change the size).  The index is passed to
    [coro_bus_channel_close] as an [int]. *)
Fixpoint delete_loop (n i : nat) (w : world) : world :=
  match n with
  | 0 => w
  | S n' =>
      delete_loop n' (S i)
        (match channels (bus w) !! i with
         | Some (Some _) => coro_bus_channel_close w (int_of_size_t i)
         | _ => w
         end)
  end.

(** The world when the loop is over, just before [delete bus]. *)
Definition coro_bus_delete (w : world) : world :=
  delete_loop (length (channels (bus w))) 0 w.

(** ** More sequences of operations *)

(** Successive [coro_bus_try_recv] calls, [n] of them, with the return
    value and the value read by each. *)
Fixpoint try_recv_seq (w : world) (channel : Z) (n : nat)
  : list (Z * option Z) * world :=
  match n with
  | 0 => ([], w)
  | S n' =>
      let '(r, out, w1) := coro_bus_try_recv w channel in
      let '(rs, w2) := try_recv_seq w1 channel n' in
      ((r, out) :: rs, w2)
  end.

(** [coro_bus_try_send] of the same message on each descriptor in turn. *)
Fixpoint try_send_each (w : world) (descs : list Z) (data : Z) : list Z * world :=
  match descs with
  | [] => ([], w)
  | d :: rest =>
      let '(r, w1) := coro_bus_try_send w d data in
      let '(rs, w2) := try_send_each w1 rest data in
      (r :: rs, w2)
  end.

(** The descriptors of the occupied slots of a table whose first slot has
    index [i], in increasing order. *)
Fixpoint open_descs (chans : list (option coro_bus_channel)) (i : nat) : list Z :=
  match chans with
  | [] => []
  | Some _ :: rest => Z.of_nat i :: open_descs rest (S i)
  | None :: rest => open_descs rest (S i)
  end.

(** Every coroutine parked on the bus: the waiters of each channel, then
    the broadcast waiters. *)
Definition chan_waiters (slot : option coro_bus_channel) : list coro :=
  match slot with
  | Some chan => send_queue chan ++ recv_queue chan
  | None => []
  end.

Definition waiters (b : coro_bus) : list coro :=
  concat (chan_waiters <$> channels b) ++ broadcast_queue b.

(** The coroutines woken in a trace. *)
Definition woken_of (tr : list event) : list coro :=
  omap (λ e, match e with Wakeup c => Some c | Yield => None end) tr.

(** The channel after [k] messages have been read one by one. *)
Definition popped (chan : coro_bus_channel) (k : nat) : coro_bus_channel :=
  mk_channel (size_limit chan) (drop k (send_queue chan)) (recv_queue chan)
             (drop k (messages chan)).

(** The broadcast queue after [k] reads from [chan]: a read pops it only
    once the channel's send queue is empty. *)
Definition parked_after (b : coro_bus) (chan : coro_bus_channel) (k : nat) : list coro :=
  drop (k - length (send_queue chan)) (broadcast_queue b).

(** The operations that neither open nor close a channel. *)
Definition is_try_form (o : op) : bool :=
  match o with
  | OpChannelOpen _ | OpChannelClose _ => false
  | _ => true
  end.

(** [w'] differs from [w] at most in the error code, which is one of the
    two codes a try-form reports. *)
Definition failed_cleanly (w w' : world) : Prop :=
  ∃ err, w' = coro_bus_errno_set w err
         ∧ (err = CORO_BUS_ERR_NO_CHANNEL ∨ err = CORO_BUS_ERR_WOULD_BLOCK).

(** [b'] has the same table length as [b] and the same capacity under
    every descriptor (so the same descriptors are open). *)
Definition same_descriptors (b b' : coro_bus) : Prop :=
  length (channels b') = length (channels b)
  ∧ ∀ d, size_limit <$> get_chanel_from b' d = size_limit <$> get_chanel_from b d.

(** The world in which [self] has been parked at the tail of a queue after
    a try-form reported [CORO_BUS_ERR_WOULD_BLOCK]: on the channel's send
    queue, on its receive queue, on the bus's broadcast queue. *)
Definition park_on_send (self : coro) (w : world) (channel : Z)
    (chan : coro_bus_channel) : world :=
  {| bus := mk_bus (<[Z.to_nat channel :=
                       Some (mk_channel (size_limit chan) (send_queue chan ++ [self])
                                        (recv_queue chan) (messages chan))]>
                      (channels (bus w)))
                   (broadcast_queue (bus w));
     global_error := CORO_BUS_ERR_WOULD_BLOCK;
     trace := trace w |}.

Definition park_on_recv (self : coro) (w : world) (channel : Z)
    (chan : coro_bus_channel) : world :=
  {| bus := mk_bus (<[Z.to_nat channel :=
                       Some (mk_channel (size_limit chan) (send_queue chan)
                                        (recv_queue chan ++ [self]) (messages chan))]>
                      (channels (bus w)))
                   (broadcast_queue (bus w));
     global_error := CORO_BUS_ERR_WOULD_BLOCK;
     trace := trace w |}.

Definition park_on_broadcast (self : coro) (w : world) : world :=
  {| bus := mk_bus (channels (bus w)) (broadcast_queue (bus w) ++ [self]);
     global_error := CORO_BUS_ERR_WOULD_BLOCK;
     trace := trace w |}.

(** The runtime calls made when the channel of a slot is closed. *)
Definition close_events (slot : option coro_bus_channel) : list event :=
  match slot with
  | Some chan =>
      (Wakeup <$> send_queue chan) ++ (Wakeup <$> recv_queue chan) ++ [Yield]
  | None => []
  end.

(** Every coroutine the bus has had to do with: those woken so far and
    those still parked. *)
Definition accounted (w : world) : list coro :=
  woken_of (trace w) ++ waiters (bus w).

(** The coroutine a blocking call has parked, if it suspended. *)
Definition parked_by (o : outcome) (self : coro) : list coro :=
  match o with
  | Suspended => [self]
  | Returned _ => []
  end.

(** ** The second source file *)

(** The second file has the same channel structure and the same
    [coro_bus_channel_open] scan, a bus without a broadcast queue, a
    [wakeup_first_and_remove_from] that returns nothing, and send and
    receive written out in place. *)
Module Plain.

Record coro_bus := mk_bus {
  channels : list (option coro_bus_channel)
}.

Record world := mk_world {
  bus : coro_bus;
  global_error : coro_bus_error_code;
  trace : list event
}.

Definition coro_bus_errno_set (w : world) (err : coro_bus_error_code) : world :=
  {| bus := bus w; global_error := err; trace := trace w |}.

Definition wakeup_first_and_remove_from (coro_queue : list coro)
  : list coro * list event :=
  match coro_queue with
  | waiting_coro :: rest => (rest, [Wakeup waiting_coro])
  | [] => ([], [])
  end.

Definition get_chanel_from (bus : coro_bus) (channel : Z) : option coro_bus_channel :=
  if (channel <? 0)%Z then None
  else if (Z.of_nat (length (channels bus)) <=? channel)%Z then None
  else default None (channels bus !! Z.to_nat channel).

Definition store_chan (w : world) (p : nat) (chan : coro_bus_channel)
    (woken : list event) : world :=
  {| bus := mk_bus (<[p := Some chan]> (channels (bus w)));
     global_error := global_error w;
     trace := trace w ++ woken |}.

Definition coro_bus_channel_open (w : world) (size_limit : nat) : Z * world :=
  let chan_desc := open_scan (channels (bus w)) 0 (-1)%Z in
  let '(chans, chan_desc) :=
    if (chan_desc =? -1)%Z then
      let chans := channels (bus w) ++ [None] in
      (chans, int_of_size_t (length chans - 1))
    else (channels (bus w), chan_desc) in
  let new_chan := mk_channel size_limit [] [] [] in
  (chan_desc,
   {| bus := mk_bus (<[size_t_of_int chan_desc := Some new_chan]> chans);
      global_error := global_error w;
      trace := trace w |}).

Definition coro_bus_channel_close (w : world) (channel : Z) : world :=
  match get_chanel_from (bus w) channel with
  | None => w
  | Some chan =>
      let '(_, woken_s) := wakeup_coro_queue (send_queue chan) in
      let '(_, woken_r) := wakeup_coro_queue (recv_queue chan) in
      {| bus := mk_bus (<[Z.to_nat channel := None]> (channels (bus w)));
         global_error := global_error w;
         trace := trace w ++ woken_s ++ woken_r ++ [Yield] |}
  end.

Definition coro_bus_try_send (w : world) (channel : Z) (data : Z) : Z * world :=
  match get_chanel_from (bus w) channel with
  | None => ((-1)%Z, coro_bus_errno_set w CORO_BUS_ERR_NO_CHANNEL)
  | Some chan =>
      if size_limit chan <=? length (messages chan) then
        ((-1)%Z, coro_bus_errno_set w CORO_BUS_ERR_WOULD_BLOCK)
      else
        let msgs := messages chan ++ [data] in
        let '(rq, woken) := wakeup_first_and_remove_from (recv_queue chan) in
        (0%Z, store_chan w (Z.to_nat channel)
                (mk_channel (size_limit chan) (send_queue chan) rq msgs) woken)
  end.

Definition coro_bus_try_recv (w : world) (channel : Z) : Z * option Z * world :=
  match get_chanel_from (bus w) channel with
  | None => ((-1)%Z, None, coro_bus_errno_set w CORO_BUS_ERR_NO_CHANNEL)
  | Some chan =>
      match messages chan with
      | [] => ((-1)%Z, None, coro_bus_errno_set w CORO_BUS_ERR_WOULD_BLOCK)
      | front :: msgs =>
          let '(sq, woken) := wakeup_first_and_remove_from (send_queue chan) in
          (0%Z, Some front,
           store_chan w (Z.to_nat channel)
             (mk_channel (size_limit chan) sq (recv_queue chan) msgs) woken)
      end
  end.

End Plain.

(** A world of the second file seen as a world of the first: the same
    table, no broadcast waiter. *)
Definition lift (w : Plain.world) : world :=
  mk_world (mk_bus (Plain.channels (Plain.bus w)) [])
           (Plain.global_error w) (Plain.trace w).

(** ** Example states *)

(** Concrete buses used to exercise the statements below. *)
Definition chan_empty_1 : coro_bus_channel := mk_channel 1 [] [] [].
Definition chan_full_2 : coro_bus_channel := mk_channel 2 [11] [12; 13] [40; 41]%Z.
Definition world_two : world :=
  mk_world (mk_bus [Some chan_empty_1; None; Some chan_full_2] [21; 22])
           CORO_BUS_ERR_NONE [].

(** Capacity 3, one message queued, three receivers waiting. *)
Definition world_vec : world :=
  mk_world (mk_bus [Some (mk_channel 3 [] [31; 32; 33] [9%Z])] [])
           CORO_BUS_ERR_NONE [].

(** A capacity-2 channel that is sent to five times in different ways holds
    two messages. *)
Definition overfill : list op :=
  [OpChannelOpen 2; OpTrySend 0 1; OpTrySendV 0 [2; 3; 4]%Z 3;
   OpTryBroadcast 5; OpTrySend 0 6].

(** Slots 0 and 2 empty, slot 1 open. *)
Definition world_gaps : world :=
  coro_bus_channel_close
    (run_ops new_world
       [OpChannelOpen 1; OpChannelOpen 1; OpChannelOpen 1; OpChannelClose 2]) 0.

(** ** Basic facts *)

Lemma get_chanel_from_Some (b : coro_bus) (d : Z) (chan : coro_bus_channel) :
  get_chanel_from b d = Some chan ↔
  (0 ≤ d)%Z ∧ channels b !! Z.to_nat d = Some (Some chan).
Proof.
  unfold get_chanel_from.
  destruct (Z.ltb_spec d 0) as [Hneg|Hpos]; [split; [done | lia] |].
  destruct (Z.leb_spec (Z.of_nat (length (channels b))) d) as [Hout|Hin].
  - split; [done |]. intros [_ Hl]. apply lookup_lt_Some in Hl. lia.
  - destruct (lookup_lt_is_Some_2 (channels b) (Z.to_nat d)) as [slot Hs]; [lia |].
    rewrite Hs. simpl. split; [intros ->; done | intros [_ ?]; congruence].
Qed.

Lemma get_chanel_from_None (b : coro_bus) (d : Z) :
  get_chanel_from b d = None ↔
  (d < 0)%Z ∨ (Z.of_nat (length (channels b)) ≤ d)%Z
  ∨ channels b !! Z.to_nat d = Some None.
Proof.
  unfold get_chanel_from.
  destruct (Z.ltb_spec d 0) as [Hneg|Hpos]; [split; [auto | done] |].
  destruct (Z.leb_spec (Z.of_nat (length (channels b))) d) as [Hout|Hin];
    [split; [auto | done] |].
  destruct (lookup_lt_is_Some_2 (channels b) (Z.to_nat d)) as [slot Hs]; [lia |].
  rewrite Hs. simpl. split.
  - intros ->. auto.
  - intros [?|[?|?]]; [lia | lia | congruence].
Qed.

Lemma get_chanel_from_store (w : world) (d : Z) chan chan' bq woken :
  get_chanel_from (bus w) d = Some chan →
  get_chanel_from (bus (store_chan w (Z.to_nat d) chan' bq woken)) d = Some chan'.
Proof.
  rewrite !get_chanel_from_Some. intros [Hd Hl]. split; [done |].
  simpl. apply list_lookup_insert_eq. by apply lookup_lt_Some in Hl.
Qed.

Lemma store_chan_store_chan w p c1 bq1 ev1 c2 bq2 ev2 :
  store_chan (store_chan w p c1 bq1 ev1) p c2 bq2 ev2
  = store_chan w p c2 bq2 (ev1 ++ ev2).
Proof.
  unfold store_chan. simpl. by rewrite list_insert_insert_eq, app_assoc.
Qed.

Lemma store_chan_id (w : world) (p : nat) chan :
  channels (bus w) !! p = Some (Some chan) →
  store_chan w p chan (broadcast_queue (bus w)) [] = w.
Proof.
  intros Hl. destruct w as [[chans bq] err tr]. unfold store_chan. simpl in *.
  by rewrite list_insert_id, app_nil_r.
Qed.

Lemma wakeup_coro_queue_drains (q : list coro) :
  wakeup_coro_queue q = ([], Wakeup <$> q).
Proof.
  induction q as [|c q IH]; [done |]. simpl. by rewrite IH.
Qed.

Lemma int_of_size_t_small (n : nat) :
  (Z.of_nat n < 2 ^ 31)%Z → int_of_size_t n = Z.of_nat n.
Proof.
  intros Hn. unfold int_of_size_t.
  rewrite Z.mod_small by lia.
  destruct (Z.ltb_spec (Z.of_nat n) (2 ^ 31)); [done | lia].
Qed.

Lemma int_of_size_t_pos (n : nat) :
  (Z.of_nat n < 2 ^ 32)%Z → (0 < int_of_size_t n)%Z → int_of_size_t n = Z.of_nat n.
Proof.
  intros Hn. unfold int_of_size_t.
  rewrite Z.mod_small by lia.
  destruct (Z.ltb_spec (Z.of_nat n) (2 ^ 31)); [done | lia].
Qed.

Lemma size_t_of_int_nonneg (z : Z) :
  (0 ≤ z < 2 ^ 64)%Z → size_t_of_int z = Z.to_nat z.
Proof. intros Hz. unfold size_t_of_int. by rewrite Z.mod_small. Qed.

Lemma get_chanel_from_store_ne (w : world) (d d' : Z) chan chan' bq woken :
  get_chanel_from (bus w) d = Some chan → d' ≠ d →
  get_chanel_from (bus (store_chan w (Z.to_nat d) chan' bq woken)) d'
  = get_chanel_from (bus w) d'.
Proof.
  intros Hd Hne. apply get_chanel_from_Some in Hd as [Hd _].
  unfold get_chanel_from. simpl. rewrite length_insert.
  destruct (Z.ltb_spec d' 0); [done |].
  destruct (Z.leb_spec (Z.of_nat (length (channels (bus w)))) d'); [done |].
  rewrite list_lookup_insert_ne by lia. done.
Qed.

Lemma world_two_ok : bus_ok (bus world_two).
Proof. repeat constructor; unfold chan_ok; simpl; lia. Defined.

(** ** Non-blocking send *)

Section try_send.
Variables (w : world) (channel data : Z).

Lemma try_send_no_channel :
  get_chanel_from (bus w) channel = None →
  coro_bus_try_send w channel data
  = ((-1)%Z, coro_bus_errno_set w CORO_BUS_ERR_NO_CHANNEL).
Proof. unfold coro_bus_try_send. by intros ->. Qed.

Lemma try_send_would_block chan :
  get_chanel_from (bus w) channel = Some chan →
  size_limit chan ≤ length (messages chan) →
  coro_bus_try_send w channel data
  = ((-1)%Z, coro_bus_errno_set w CORO_BUS_ERR_WOULD_BLOCK).
Proof.
  unfold coro_bus_try_send, have_free_space. intros -> Hfull.
  destruct (Nat.ltb_spec (length (messages chan)) (size_limit chan)); [lia | done].
Qed.

Lemma try_send_success chan :
  get_chanel_from (bus w) channel = Some chan →
  length (messages chan) < size_limit chan →
  coro_bus_try_send w channel data
  = (0%Z, store_chan w (Z.to_nat channel) (send_and_wakeup_to chan data).1
            (broadcast_queue (bus w)) (send_and_wakeup_to chan data).2).
Proof.
  unfold coro_bus_try_send, have_free_space. intros -> Hfree.
  destruct (Nat.ltb_spec (length (messages chan)) (size_limit chan)); [| lia].
  simpl. by destruct (send_and_wakeup_to chan data).
Qed.
End try_send.

Lemma send_and_wakeup_to_messages chan data :
  messages (send_and_wakeup_to chan data).1 = messages chan ++ [data]
  ∧ size_limit (send_and_wakeup_to chan data).1 = size_limit chan
  ∧ send_queue (send_and_wakeup_to chan data).1 = send_queue chan.
Proof. unfold send_and_wakeup_to. by destruct (recv_queue chan). Qed.

(** C4. [coro_bus_try_send] on a bus that satisfies the channel invariant:
    a descriptor that is negative, out of range or names an empty slot gives
    -1 with [CORO_BUS_ERR_NO_CHANNEL]; an existing channel whose queue length
    equals its capacity gives -1 with [CORO_BUS_ERR_WOULD_BLOCK]; in every
    other case the message is appended at the tail of that channel's queue,
    0 is returned, and neither the error code nor any other channel
    changes. *)
Theorem try_send_outcomes (w : world) (channel data : Z) :
  bus_ok (bus w) →
  ((channel < 0)%Z ∨ (Z.of_nat (length (channels (bus w))) ≤ channel)%Z
     ∨ channels (bus w) !! Z.to_nat channel = Some None →
   coro_bus_try_send w channel data
   = ((-1)%Z, coro_bus_errno_set w CORO_BUS_ERR_NO_CHANNEL))
  ∧ (∀ chan, get_chanel_from (bus w) channel = Some chan →
       (length (messages chan) = size_limit chan →
        coro_bus_try_send w channel data
        = ((-1)%Z, coro_bus_errno_set w CORO_BUS_ERR_WOULD_BLOCK))
       ∧ (length (messages chan) ≠ size_limit chan →
          ∃ w' chan',
            coro_bus_try_send w channel data = (0%Z, w')
            ∧ get_chanel_from (bus w') channel = Some chan'
            ∧ messages chan' = messages chan ++ [data]
            ∧ size_limit chan' = size_limit chan
            ∧ global_error w' = global_error w
            ∧ ∀ d, d ≠ channel →
                get_chanel_from (bus w') d = get_chanel_from (bus w) d)).
Proof.
  intros Hok. split.
  - intros Hbad. apply try_send_no_channel. by apply get_chanel_from_None.
  - intros chan Hchan. split.
    + intros Hfull. apply (try_send_would_block _ _ _ chan); [done | lia].
    + intros Hne.
      assert (chan_ok chan) as Hc.
      { apply get_chanel_from_Some in Hchan as [_ Hl].
        unfold bus_ok in Hok. rewrite Forall_lookup in Hok. apply (Hok _ _ Hl). }
      unfold chan_ok in Hc.
      eexists _, _. split; [apply (try_send_success _ _ _ chan); [done | lia] |].
      destruct (send_and_wakeup_to_messages chan data) as (Hm & Hs & _).
      split; [by eapply get_chanel_from_store |].
      repeat split; [done | done |].
      intros d Hd. by eapply get_chanel_from_store_ne.
Qed.

Lemma try_send_outcomes_witness :
  ∃ w' chan',
    coro_bus_try_send world_two 0 7 = (0%Z, w')
    ∧ get_chanel_from (bus w') 0 = Some chan'
    ∧ messages chan' = [7%Z]
    ∧ size_limit chan' = 1
    ∧ global_error w' = CORO_BUS_ERR_NONE
    ∧ ∀ d, d ≠ 0%Z → get_chanel_from (bus w') d = get_chanel_from (bus world_two) d.
Proof.
  destruct (try_send_outcomes world_two 0 7 world_two_ok) as [_ H].
  destruct (H chan_empty_1 eq_refl) as [_ H'].
  apply H'. simpl. lia.
Defined.

(** The three outcomes on the example bus: slot 1 is empty, slot 2 is full. *)
Example try_send_examples :
  coro_bus_try_send world_two 1 7
  = ((-1)%Z, coro_bus_errno_set world_two CORO_BUS_ERR_NO_CHANNEL)
  ∧ coro_bus_try_send world_two (-3) 7
    = ((-1)%Z, coro_bus_errno_set world_two CORO_BUS_ERR_NO_CHANNEL)
  ∧ coro_bus_try_send world_two 3 7
    = ((-1)%Z, coro_bus_errno_set world_two CORO_BUS_ERR_NO_CHANNEL)
  ∧ coro_bus_try_send world_two 2 7
    = ((-1)%Z, coro_bus_errno_set world_two CORO_BUS_ERR_WOULD_BLOCK).
Proof. repeat split. Qed.

(** ** Wake-ups *)

Lemma read_and_wakeup_from_eq (b : coro_bus) (chan : coro_bus_channel) :
  read_and_wakeup_from b chan
  = (hd 0%Z (messages chan),
     mk_channel (size_limit chan) (tail (send_queue chan)) (recv_queue chan)
                (tail (messages chan)),
     match send_queue chan with
     | _ :: _ => broadcast_queue b
     | [] => tail (broadcast_queue b)
     end,
     Wakeup <$> woken_by_read b chan).
Proof.
  unfold read_and_wakeup_from, woken_by_read.
  destruct (send_queue chan) as [|s sq]; simpl; [| done].
  by destruct (broadcast_queue b).
Qed.

Lemma send_and_wakeup_to_eq (chan : coro_bus_channel) (data : Z) :
  send_and_wakeup_to chan data
  = (mk_channel (size_limit chan) (send_queue chan) (tail (recv_queue chan))
                (messages chan ++ [data]),
     Wakeup <$> take 1 (recv_queue chan)).
Proof. unfold send_and_wakeup_to. by destruct (recv_queue chan). Qed.

Lemma try_recv_success (w : world) (channel : Z) (chan : coro_bus_channel) v rest :
  get_chanel_from (bus w) channel = Some chan →
  messages chan = v :: rest →
  coro_bus_try_recv w channel
  = (0%Z, Some v,
     store_chan w (Z.to_nat channel)
       (mk_channel (size_limit chan) (tail (send_queue chan)) (recv_queue chan) rest)
       (match send_queue chan with
        | _ :: _ => broadcast_queue (bus w)
        | [] => tail (broadcast_queue (bus w))
        end)
       (Wakeup <$> woken_by_read (bus w) chan)).
Proof.
  intros Hc Hm. unfold coro_bus_try_recv. rewrite Hc, Hm.
  rewrite read_and_wakeup_from_eq, Hm. done.
Qed.

Lemma try_recv_would_block (w : world) (channel : Z) (chan : coro_bus_channel) :
  get_chanel_from (bus w) channel = Some chan →
  messages chan = [] →
  coro_bus_try_recv w channel
  = ((-1)%Z, None, coro_bus_errno_set w CORO_BUS_ERR_WOULD_BLOCK).
Proof. intros Hc Hm. unfold coro_bus_try_recv. by rewrite Hc, Hm. Qed.

(** C3. A dequeue ([read_and_wakeup_from]) wakes the head of the channel's
    [send_queue]; only when that queue is empty it wakes the head of the
    bus's [broadcast_queue]; it wakes nobody else.  An enqueue
    ([send_and_wakeup_to]) wakes at most the head of the channel's
    [recv_queue]; a successful [coro_bus_try_send] leaves the broadcast
    queue as it was and adds no other runtime call to the trace. *)
Theorem wake_at_most_one (b : coro_bus) (chan : coro_bus_channel) (data : Z) :
  (let '(_, chan', bq', woken) := read_and_wakeup_from b chan in
   recv_queue chan' = recv_queue chan ∧
   match send_queue chan with
   | s :: sq =>
       woken = [Wakeup s] ∧ send_queue chan' = sq ∧ bq' = broadcast_queue b
   | [] =>
       send_queue chan' = [] ∧
       match broadcast_queue b with
       | c :: bq => woken = [Wakeup c] ∧ bq' = bq
       | [] => woken = [] ∧ bq' = []
       end
   end)
  ∧ (let '(chan', woken) := send_and_wakeup_to chan data in
     send_queue chan' = send_queue chan ∧
     match recv_queue chan with
     | r :: rq => woken = [Wakeup r] ∧ recv_queue chan' = rq
     | [] => woken = [] ∧ recv_queue chan' = []
     end)
  ∧ (∀ w channel,
       get_chanel_from (bus w) channel = Some chan →
       length (messages chan) < size_limit chan →
       let w' := (coro_bus_try_send w channel data).2 in
       broadcast_queue (bus w') = broadcast_queue (bus w)
       ∧ trace w' = trace w ++ (Wakeup <$> take 1 (recv_queue chan)))
  ∧ (∀ w channel,
       get_chanel_from (bus w) channel = Some chan →
       messages chan ≠ [] →
       let w' := (coro_bus_try_recv w channel).2 in
       trace w' = trace w ++ (Wakeup <$> woken_by_read (bus w) chan)
       ∧ length (woken_by_read (bus w) chan) ≤ 1).
Proof.
  split; [| split; [| split]].
  - rewrite read_and_wakeup_from_eq. split; [done |].
    unfold woken_by_read. destruct (send_queue chan); [| done].
    split; [done |]. by destruct (broadcast_queue b).
  - rewrite send_and_wakeup_to_eq. split; [done |].
    by destruct (recv_queue chan).
  - intros w channel Hc Hfree. cbv zeta.
    rewrite (try_send_success _ _ _ chan) by done.
    by rewrite send_and_wakeup_to_eq.
  - intros w channel Hc Hm. cbv zeta.
    destruct (messages chan) as [|v rest] eqn:Hv; [done |].
    rewrite (try_recv_success _ _ chan v rest) by done. split; [done |].
    unfold woken_by_read. destruct (send_queue chan); simpl; [| lia].
    destruct (broadcast_queue (bus w)); simpl; lia.
Qed.

(** On the example bus: receiving from slot 2 wakes sender 11 and leaves the
    broadcast queue; receiving from a channel without waiting senders wakes
    broadcaster 21. *)
Example wake_examples :
  trace (coro_bus_try_recv world_two 2).2 = [Wakeup 11]
  ∧ broadcast_queue (bus (coro_bus_try_recv world_two 2).2) = [21; 22]
  ∧ trace (coro_bus_try_recv (coro_bus_try_send world_two 0 5).2 0).2 = [Wakeup 21]
  ∧ broadcast_queue (bus (coro_bus_try_recv (coro_bus_try_send world_two 0 5).2 0).2)
    = [22].
Proof. repeat split. Qed.

(** ** Closing a channel *)

Lemma channel_close_absent (w : world) (channel : Z) :
  get_chanel_from (bus w) channel = None → coro_bus_channel_close w channel = w.
Proof. unfold coro_bus_channel_close. by intros ->. Qed.

Lemma channel_close_present (w : world) (channel : Z) (chan : coro_bus_channel) :
  get_chanel_from (bus w) channel = Some chan →
  coro_bus_channel_close w channel
  = {| bus := mk_bus (<[Z.to_nat channel := None]> (channels (bus w)))
                     (broadcast_queue (bus w));
       global_error := global_error w;
       trace := trace w ++ (Wakeup <$> send_queue chan)
                ++ (Wakeup <$> recv_queue chan) ++ [Yield] |}.
Proof.
  unfold coro_bus_channel_close. intros ->.
  by rewrite !wakeup_coro_queue_drains.
Qed.

Lemma get_chanel_from_closed (w : world) (channel : Z) :
  get_chanel_from (bus (coro_bus_channel_close w channel)) channel = None.
Proof.
  destruct (get_chanel_from (bus w) channel) as [chan|] eqn:Hc.
  - rewrite (channel_close_present _ _ _ Hc). simpl.
    apply get_chanel_from_Some in Hc as [Hd Hl].
    apply get_chanel_from_None. right. right. simpl.
    apply list_lookup_insert_eq. by apply lookup_lt_Some in Hl.
  - by rewrite channel_close_absent.
Qed.

(** C8. Closing a descriptor that is negative, out of range or names an
    empty slot changes nothing; closing twice in a row is the same as
    closing once; after closing an open channel its slot is empty, every
    waiter of both of its queues has been woken (senders first, each queue
    front to back) and both queues were left empty, one yield follows, and
    no other slot, the broadcast queue or the error code changes. *)
Theorem channel_close_idempotent (w : world) (channel : Z) :
  ((channel < 0)%Z ∨ (Z.of_nat (length (channels (bus w))) ≤ channel)%Z
     ∨ channels (bus w) !! Z.to_nat channel = Some None →
   coro_bus_channel_close w channel = w)
  ∧ coro_bus_channel_close (coro_bus_channel_close w channel) channel
    = coro_bus_channel_close w channel
  ∧ (∀ chan, get_chanel_from (bus w) channel = Some chan →
       let w' := coro_bus_channel_close w channel in
       channels (bus w') !! Z.to_nat channel = Some None
       ∧ get_chanel_from (bus w') channel = None
       ∧ wakeup_coro_queue (send_queue chan) = ([], Wakeup <$> send_queue chan)
       ∧ wakeup_coro_queue (recv_queue chan) = ([], Wakeup <$> recv_queue chan)
       ∧ trace w' = trace w ++ (Wakeup <$> send_queue chan)
                    ++ (Wakeup <$> recv_queue chan) ++ [Yield]
       ∧ broadcast_queue (bus w') = broadcast_queue (bus w)
       ∧ global_error w' = global_error w
       ∧ length (channels (bus w')) = length (channels (bus w))
       ∧ ∀ i, i ≠ Z.to_nat channel →
           channels (bus w') !! i = channels (bus w) !! i).
Proof.
  split; [| split].
  - intros Hbad. apply channel_close_absent. by apply get_chanel_from_None.
  - apply channel_close_absent, get_chanel_from_closed.
  - intros chan Hc w'. subst w'.
    split.
    { rewrite (channel_close_present _ _ _ Hc). simpl.
      apply get_chanel_from_Some in Hc as [_ Hl].
      apply list_lookup_insert_eq. by apply lookup_lt_Some in Hl. }
    split; [apply get_chanel_from_closed |].
    rewrite !wakeup_coro_queue_drains, (channel_close_present _ _ _ Hc). simpl.
    repeat split; [apply length_insert |].
    intros i Hi. by apply list_lookup_insert_ne.
Qed.

Example channel_close_examples :
  coro_bus_channel_close world_two 1 = world_two
  ∧ coro_bus_channel_close world_two (-1) = world_two
  ∧ coro_bus_channel_close world_two 3 = world_two
  ∧ channels (bus (coro_bus_channel_close world_two 2))
    = [Some chan_empty_1; None; None]
  ∧ trace (coro_bus_channel_close world_two 2)
    = [Wakeup 11; Wakeup 12; Wakeup 13; Yield].
Proof. repeat split. Qed.

(** ** Vectorised send *)

Lemma pushed_nil chan : pushed chan [] = chan.
Proof. destruct chan. unfold pushed. simpl. by rewrite app_nil_r. Qed.

Lemma pushed_cons chan v vals :
  pushed (send_and_wakeup_to chan v).1 vals = pushed chan (v :: vals).
Proof.
  rewrite send_and_wakeup_to_eq. unfold pushed. simpl.
  rewrite <- app_assoc. simpl. f_equal.
  destruct (recv_queue chan); simpl; [by rewrite drop_nil | done].
Qed.

Lemma woken_cons (rq : list coro) (k : nat) :
  (Wakeup <$> take 1 rq) ++ (Wakeup <$> take k (tail rq)) = Wakeup <$> take (S k) rq.
Proof. destruct rq; simpl; [by rewrite take_nil | done]. Qed.

Lemma send_and_wakeup_to_recv_queue chan v :
  recv_queue (send_and_wakeup_to chan v).1 = tail (recv_queue chan).
Proof. by rewrite send_and_wakeup_to_eq. Qed.

Lemma free_space_send chan v :
  free_space (send_and_wakeup_to chan v).1 = free_space chan - 1.
Proof.
  rewrite send_and_wakeup_to_eq. unfold free_space. simpl.
  rewrite length_app. simpl. lia.
Qed.

(** Closed form of the loop: it pushes [data[i..i+k)] where [k] is the
    smaller of the remaining count and the free space. *)
Lemma send_v_loop_eq (data : list Z) (n i : nat) (chan : coro_bus_channel) :
  let k := n `min` free_space chan in
  send_v_loop data n i chan
  = (i + k, pushed chan ((λ j, data !!! j) <$> seq i k),
     Wakeup <$> take k (recv_queue chan)).
Proof.
  revert i chan. induction n as [|n IH]; intros i chan; cbv zeta; cbn [send_v_loop].
  - rewrite Nat.min_0_l, take_0. cbn [seq fmap list_fmap].
    by rewrite pushed_nil, Nat.add_0_r.
  - unfold have_free_space.
    destruct (Nat.ltb_spec (length (messages chan)) (size_limit chan)) as [Hfree|Hfull].
    + destruct (send_and_wakeup_to chan (data !!! i)) as [chan1 woken1] eqn:Hs.
      assert (chan1 = (send_and_wakeup_to chan (data !!! i)).1) as Hc1 by by rewrite Hs.
      assert (woken1 = (send_and_wakeup_to chan (data !!! i)).2) as Hw1 by by rewrite Hs.
      rewrite (IH (S i) chan1). subst chan1 woken1.
      rewrite free_space_send, send_and_wakeup_to_recv_queue, pushed_cons.
      assert (S n `min` free_space chan = S (n `min` (free_space chan - 1))) as ->
        by (unfold free_space; lia).
      cbn [seq fmap list_fmap]. f_equal; [f_equal; lia |].
      rewrite send_and_wakeup_to_eq. cbn [snd]. apply woken_cons.
    + assert (free_space chan = 0) as -> by (unfold free_space; lia).
      rewrite Nat.min_0_r, take_0. cbn [seq fmap list_fmap].
      by rewrite pushed_nil, Nat.add_0_r.
Qed.

Lemma lookup_total_seq_take (data : list Z) (k : nat) :
  k ≤ length data → (λ j, data !!! j) <$> seq 0 k = take k data.
Proof.
  revert data. induction k as [|k IH]; intros data Hk; [by rewrite take_0 |].
  destruct data as [|x data]; simpl in *; [lia |].
  f_equal. rewrite <- (IH data) by lia.
  rewrite <- fmap_S_seq, <- list_fmap_compose. done.
Qed.

(** Closed form of a run of successful [coro_bus_try_send] calls. *)
Lemma try_send_seq_eq (w : world) (channel : Z) (chan : coro_bus_channel) (vals : list Z) :
  get_chanel_from (bus w) channel = Some chan →
  length vals ≤ free_space chan →
  try_send_seq w channel vals
  = (replicate (length vals) 0%Z,
     store_chan w (Z.to_nat channel) (pushed chan vals) (broadcast_queue (bus w))
                (Wakeup <$> take (length vals) (recv_queue chan))).
Proof.
  revert w chan. induction vals as [|v vals IH]; intros w chan Hc Hlen; simpl.
  - rewrite pushed_nil. f_equal. symmetry. apply store_chan_id.
    by apply get_chanel_from_Some in Hc as [_ ?].
  - simpl in Hlen.
    rewrite (try_send_success _ _ _ chan) by (done || unfold free_space in Hlen; lia).
    erewrite IH; [| by eapply get_chanel_from_store |].
    + rewrite store_chan_store_chan, pushed_cons. simpl. do 2 f_equal.
      rewrite send_and_wakeup_to_eq. simpl. apply woken_cons.
    + rewrite free_space_send. lia.
Qed.

Lemma try_send_v_eq (w : world) (channel : Z) (chan : coro_bus_channel)
    (data : list Z) (count : nat) :
  get_chanel_from (bus w) channel = Some chan →
  count ≤ length data →
  let k := count `min` free_space chan in
  coro_bus_try_send_v w channel data count
  = if k =? 0 then ((-1)%Z, coro_bus_errno_set w CORO_BUS_ERR_WOULD_BLOCK)
    else (int_of_size_t k,
          store_chan w (Z.to_nat channel) (pushed chan (take k data))
                     (broadcast_queue (bus w))
                     (Wakeup <$> take k (recv_queue chan))).
Proof.
  intros Hc Hcount k. unfold coro_bus_try_send_v. rewrite Hc, send_v_loop_eq.
  fold k. simpl. rewrite lookup_total_seq_take by lia.
  destruct (Nat.eqb_spec k 0) as [->|Hk]; [| done].
  rewrite take_0, pushed_nil. simpl. rewrite store_chan_id; [done |].
  by apply get_chanel_from_Some in Hc as [_ ?].
Qed.

(** C6. When [coro_bus_try_send_v] on [count] values (the array holding at
    least [count], [count] being an [unsigned]) returns [k > 0], performing
    [coro_bus_try_send] on the first [k] values of the array, in order,
    from the same initial state returns 0 each time and ends in the same
    state (bus, error code and runtime calls); [k] is the smaller of [count]
    and the channel's free space, and the channel's queue has grown by the
    first [k] values of the array. *)
Theorem try_send_v_as_try_sends (w : world) (channel : Z) (data : list Z)
    (count : nat) (k : Z) (w' : world) :
  count ≤ length data →
  (Z.of_nat count < 2 ^ 32)%Z →
  coro_bus_try_send_v w channel data count = (k, w') →
  (0 < k)%Z →
  try_send_seq w channel (take (Z.to_nat k) data)
  = (replicate (Z.to_nat k) 0%Z, w')
  ∧ ∃ chan chan',
      get_chanel_from (bus w) channel = Some chan
      ∧ Z.to_nat k = count `min` (size_limit chan - length (messages chan))
      ∧ get_chanel_from (bus w') channel = Some chan'
      ∧ messages chan' = messages chan ++ take (Z.to_nat k) data.
Proof.
  intros Hcount Hu Hv Hk.
  destruct (get_chanel_from (bus w) channel) as [chan|] eqn:Hc.
  2:{ unfold coro_bus_try_send_v in Hv. rewrite Hc in Hv.
      injection Hv as <- _. lia. }
  rewrite (try_send_v_eq _ _ chan) in Hv by done. cbv zeta in Hv.
  set (kn := count `min` free_space chan) in *.
  destruct (Nat.eqb_spec kn 0) as [Hz|Hnz]; [injection Hv as <- _; lia |].
  injection Hv as <- <-.
  assert (kn ≤ count) as Hle by (subst kn; lia).
  rewrite int_of_size_t_pos in * by (done || lia).
  rewrite Nat2Z.id.
  assert (length (take kn data) = kn) as Hlen by (rewrite length_take; lia).
  split.
  - rewrite (try_send_seq_eq _ _ chan) by (done || rewrite Hlen; subst kn; lia).
    by rewrite Hlen.
  - exists chan, (pushed chan (take kn data)).
    split; [done |]. split; [done |]. split; [| done].
    by eapply get_chanel_from_store.
Qed.

Lemma try_send_v_as_try_sends_witness :
  try_send_seq world_vec 0 (take (Z.to_nat 2) [5; 6; 7; 8]%Z)
  = (replicate (Z.to_nat 2) 0%Z, (coro_bus_try_send_v world_vec 0 [5; 6; 7; 8]%Z 4).2)
  ∧ ∃ chan chan',
      get_chanel_from (bus world_vec) 0 = Some chan
      ∧ Z.to_nat 2 = 4 `min` (size_limit chan - length (messages chan))
      ∧ get_chanel_from (bus (coro_bus_try_send_v world_vec 0 [5; 6; 7; 8]%Z 4).2) 0
        = Some chan'
      ∧ messages chan' = messages chan ++ take (Z.to_nat 2) [5; 6; 7; 8]%Z.
Proof.
  apply (try_send_v_as_try_sends world_vec 0 [5; 6; 7; 8]%Z 4 2).
  - simpl. lia.
  - reflexivity.
  - reflexivity.
  - reflexivity.
Defined.

(** The vectorised partial send of the specification: two of four values
    fit, the receivers at the head of the queue are woken in order, and the
    next call would block. *)
Example try_send_v_example :
  let r := coro_bus_try_send_v world_vec 0 [5; 6; 7; 8]%Z 4 in
  r.1 = 2%Z
  ∧ get_chanel_from (bus r.2) 0 = Some (mk_channel 3 [] [33] [9; 5; 6]%Z)
  ∧ trace r.2 = [Wakeup 31; Wakeup 32]
  ∧ (coro_bus_try_send_v r.2 0 [7; 8]%Z 2).1 = (-1)%Z
  ∧ global_error (coro_bus_try_send_v r.2 0 [7; 8]%Z 2).2 = CORO_BUS_ERR_WOULD_BLOCK.
Proof. repeat split. Qed.

(** C7, as the code has it. [coro_bus_try_send_v] with [count = 0] on an
    existing channel returns -1 and sets [CORO_BUS_ERR_WOULD_BLOCK]; nothing
    else changes. *)
Theorem try_send_v_count_zero (w : world) (channel : Z) (chan : coro_bus_channel)
    (data : list Z) :
  get_chanel_from (bus w) channel = Some chan →
  coro_bus_try_send_v w channel data 0
  = ((-1)%Z, coro_bus_errno_set w CORO_BUS_ERR_WOULD_BLOCK).
Proof.
  intros Hc. unfold coro_bus_try_send_v. rewrite Hc. simpl.
  rewrite store_chan_id; [done |].
  by apply get_chanel_from_Some in Hc as [_ ?].
Qed.

Lemma try_send_v_count_zero_witness :
  coro_bus_try_send_v world_vec 0 [5; 6]%Z 0
  = ((-1)%Z, coro_bus_errno_set world_vec CORO_BUS_ERR_WOULD_BLOCK).
Proof. apply (try_send_v_count_zero world_vec 0 _ _ eq_refl). Defined.

(** C7 as the specification states it (return 0, [CORO_BUS_ERR_WOULD_BLOCK]
    not set) fails: on a freshly opened channel of capacity 2, with the
    error code at [CORO_BUS_ERR_NONE], a call with [count = 0] returns -1
    and leaves the error code at [CORO_BUS_ERR_WOULD_BLOCK]. *)
Lemma try_send_v_count_zero_counterexample :
  let w := (coro_bus_channel_open new_world 2).2 in
  get_chanel_from (bus w) 0 = Some (mk_channel 2 [] [] [])
  ∧ global_error w = CORO_BUS_ERR_NONE
  ∧ (coro_bus_try_send_v w 0 [] 0).1 = (-1)%Z
  ∧ (coro_bus_try_send_v w 0 [] 0).1 ≠ 0%Z
  ∧ global_error (coro_bus_try_send_v w 0 [] 0).2 = CORO_BUS_ERR_WOULD_BLOCK.
Proof. by repeat split. Qed.

(** ** Vectorised receive *)

(** C10. [coro_bus_try_recv_v] with [capacity = 0] on an existing channel
    returns -1, writes nothing, sets [CORO_BUS_ERR_WOULD_BLOCK] and leaves
    the bus, hence the channel's message queue, as it was, whatever the
    queue holds. *)
Theorem try_recv_v_capacity_zero (w : world) (channel : Z) (chan : coro_bus_channel) :
  get_chanel_from (bus w) channel = Some chan →
  coro_bus_try_recv_v w channel 0
  = ((-1)%Z, [], coro_bus_errno_set w CORO_BUS_ERR_WOULD_BLOCK).
Proof.
  intros Hc. unfold coro_bus_try_recv_v. rewrite Hc. simpl.
  rewrite store_chan_id; [done |].
  by apply get_chanel_from_Some in Hc as [_ ?].
Qed.

Lemma try_recv_v_capacity_zero_witness :
  messages chan_full_2 = [40; 41]%Z
  ∧ coro_bus_try_recv_v world_two 2 0
    = ((-1)%Z, [], coro_bus_errno_set world_two CORO_BUS_ERR_WOULD_BLOCK).
Proof.
  split; [reflexivity |].
  apply (try_recv_v_capacity_zero world_two 2 chan_full_2 eq_refl).
Defined.

(** ** Broadcast *)

Section broadcast.
Variable data : Z.

Lemma collect_alive_acc chans i acc :
  collect_alive chans i acc = (acc ++.) <$> collect_alive chans i [].
Proof.
  revert i acc. induction chans as [|[chan|] rest IH]; intros i acc; simpl.
  - by rewrite app_nil_r.
  - destruct (have_free_space chan); simpl; [| done].
    rewrite (IH (S i) (acc ++ [i])), (IH (S i) [i]).
    destruct (collect_alive rest (S i) []); simpl; [| done].
    by rewrite <- app_assoc.
  - apply IH.
Qed.

Lemma collect_alive_None chans i acc :
  collect_alive chans i acc = None →
  ∃ j chan, chans !! j = Some (Some chan) ∧ have_free_space chan = false.
Proof.
  revert i acc. induction chans as [|[chan|] rest IH]; intros i acc; simpl; [done | |].
  - destruct (have_free_space chan) eqn:Hf; simpl.
    + intros H. destruct (IH _ _ H) as (j & c & Hj & Hc). by exists (S j), c.
    + intros _. by exists 0, chan.
  - intros H. destruct (IH _ _ H) as (j & c & Hj & Hc). by exists (S j), c.
Qed.

Lemma collect_alive_Some_free chans i acc alive :
  collect_alive chans i acc = Some alive →
  Forall (λ slot, ∀ chan, slot = Some chan → have_free_space chan = true) chans.
Proof.
  revert i acc. induction chans as [|[chan|] rest IH]; intros i acc; simpl; [done | |].
  - destruct (have_free_space chan) eqn:Hf; simpl; [| done].
    intros H. constructor; [by intros ? [= <-] | by eapply IH].
  - intros H. constructor; [done | by eapply IH].
Qed.

Lemma collect_alive_nil chans i :
  collect_alive chans i [] = Some [] → Forall (λ slot, slot = None) chans.
Proof.
  revert i. induction chans as [|[chan|] rest IH]; intros i; simpl; [done | |].
  - destruct (have_free_space chan); simpl; [| done].
    rewrite collect_alive_acc.
    destruct (collect_alive rest (S i) []); simpl; [| done]. done.
  - intros H. constructor; [done | by eapply IH].
Qed.

(** The second loop, run on the pointers the first loop collected from
    the slots after [pre], pushes into each occupied slot once, in index
    order. *)
Lemma broadcast_fold chans : ∀ pre w alive,
  channels (bus w) = pre ++ chans →
  collect_alive chans (length pre) [] = Some alive →
  fold_left (broadcast_to data) alive w
  = {| bus := mk_bus (pre ++ (push_slot data <$> chans)) (broadcast_queue (bus w));
       global_error := global_error w;
       trace := trace w ++ concat (woken_slot data <$> chans) |}.
Proof.
  induction chans as [|[chan|] rest IH]; intros pre w alive Hw; simpl.
  - intros [= <-]. destruct w as [[chs bq] err tr]. simpl in *.
    by rewrite Hw, !app_nil_r.
  - destruct (have_free_space chan); simpl; [| done].
    rewrite collect_alive_acc.
    destruct (collect_alive rest (S (length pre)) []) as [alive'|] eqn:Ha;
      simpl; [| done].
    intros [= <-]. simpl.
    assert (channels (bus w) !! length pre = Some (Some chan)) as Hl
      by (rewrite Hw; apply list_lookup_middle; done).
    unfold broadcast_to at 2. rewrite Hl.
    destruct (send_and_wakeup_to chan data) as [chan' woken] eqn:Hs.
    rewrite (IH (pre ++ [Some chan'])).
    + simpl. rewrite <- !app_assoc. done.
    + simpl. rewrite Hw, insert_app_r_alt, Nat.sub_diag by lia. simpl.
      by rewrite <- app_assoc.
    + rewrite length_app. simpl. by rewrite Nat.add_1_r.
  - intros Ha. rewrite (IH (pre ++ [None]) w alive).
    + by rewrite <- !app_assoc.
    + by rewrite Hw, <- app_assoc.
    + rewrite length_app. simpl. by rewrite Nat.add_1_r.
Qed.

Lemma try_broadcast_eq (w : world) :
  coro_bus_try_broadcast w data
  = match collect_alive (channels (bus w)) 0 [] with
    | None => ((-1)%Z, coro_bus_errno_set w CORO_BUS_ERR_WOULD_BLOCK)
    | Some [] => ((-1)%Z, coro_bus_errno_set w CORO_BUS_ERR_NO_CHANNEL)
    | Some (_ :: _) =>
        (0%Z, {| bus := mk_bus (push_slot data <$> channels (bus w))
                               (broadcast_queue (bus w));
                 global_error := global_error w;
                 trace := trace w ++ concat (woken_slot data <$> channels (bus w)) |})
    end.
Proof.
  unfold coro_bus_try_broadcast.
  destruct (collect_alive (channels (bus w)) 0 []) as [[|p alive]|] eqn:Ha; [done | | done].
  f_equal. by apply (broadcast_fold (channels (bus w)) [] w (p :: alive)).
Qed.
End broadcast.

(** C2. [coro_bus_try_broadcast] returns 0 or -1.  When it returns 0 the
    table keeps its length, empty slots stay empty, and the queue of every
    channel that was open grows by exactly the one message, at its tail.
    When it returns -1 the bus and the trace are unchanged, and the error
    code is [CORO_BUS_ERR_WOULD_BLOCK] with some open channel holding at
    least [size_limit] messages, or [CORO_BUS_ERR_NO_CHANNEL] with no slot
    occupied. *)
Theorem try_broadcast_all_or_nothing (w : world) (data : Z) :
  let r := (coro_bus_try_broadcast w data).1 in
  let w' := (coro_bus_try_broadcast w data).2 in
  (r = 0%Z ∨ r = (-1)%Z)
  ∧ (r = 0%Z →
     length (channels (bus w')) = length (channels (bus w))
     ∧ ∀ i,
         (channels (bus w) !! i = Some None → channels (bus w') !! i = Some None)
         ∧ ∀ chan, channels (bus w) !! i = Some (Some chan) →
             ∃ chan', channels (bus w') !! i = Some (Some chan')
               ∧ messages chan' = messages chan ++ [data]
               ∧ size_limit chan' = size_limit chan)
  ∧ (r = (-1)%Z →
     bus w' = bus w ∧ trace w' = trace w
     ∧ ((global_error w' = CORO_BUS_ERR_WOULD_BLOCK
         ∧ ∃ i chan, channels (bus w) !! i = Some (Some chan)
             ∧ size_limit chan ≤ length (messages chan))
        ∨ (global_error w' = CORO_BUS_ERR_NO_CHANNEL
           ∧ ∀ i slot, channels (bus w) !! i = Some slot → slot = None))).
Proof.
  cbv zeta. rewrite try_broadcast_eq.
  destruct (collect_alive (channels (bus w)) 0 []) as [[|p alive]|] eqn:Ha; simpl.
  - split; [by right |]. split; [done |]. intros _.
    split; [done |]. split; [done |]. right. split; [done |].
    apply collect_alive_nil in Ha. rewrite Forall_lookup in Ha. apply Ha.
  - split; [by left |]. split; [| done]. intros _.
    split; [apply length_fmap |]. intros i. rewrite list_lookup_fmap. split.
    + by intros ->.
    + intros chan ->. simpl. eexists. split; [done |].
      by destruct (send_and_wakeup_to_messages chan data) as (? & ? & _).
  - split; [by right |]. split; [done |]. intros _.
    split; [done |]. split; [done |]. left. split; [done |].
    destruct (collect_alive_None _ _ _ Ha) as (j & chan & Hj & Hf).
    exists j, chan. split; [done |].
    unfold have_free_space in Hf. apply Nat.ltb_ge in Hf. done.
Qed.

(** The fan-out scenario: with slot 2 full nothing is delivered; once slot 2
    has been read, both open channels receive 99 and one receiver of
    slot 2 is woken. *)
Example try_broadcast_examples :
  coro_bus_try_broadcast world_two 99
  = ((-1)%Z, coro_bus_errno_set world_two CORO_BUS_ERR_WOULD_BLOCK)
  ∧ coro_bus_try_broadcast new_world 99
    = ((-1)%Z, coro_bus_errno_set new_world CORO_BUS_ERR_NO_CHANNEL)
  ∧ (let w := (coro_bus_try_recv world_two 2).2 in
     (coro_bus_try_broadcast w 99).1 = 0%Z
     ∧ channels (bus (coro_bus_try_broadcast w 99).2)
       = [Some (mk_channel 1 [] [] [99%Z]); None;
          Some (mk_channel 2 [] [13] [41; 99]%Z)]
     ∧ trace (coro_bus_try_broadcast w 99).2 = [Wakeup 11; Wakeup 12]).
Proof. repeat split. Qed.

(** ** The channel invariant *)

Lemma chan_ok_send chan data :
  have_free_space chan = true → chan_ok (send_and_wakeup_to chan data).1.
Proof.
  unfold have_free_space, chan_ok. intros Hf%Nat.ltb_lt.
  rewrite send_and_wakeup_to_eq. simpl. rewrite length_app. simpl. lia.
Qed.

Lemma chan_ok_read b chan :
  chan_ok chan → chan_ok (read_and_wakeup_from b chan).1.1.2.
Proof.
  unfold chan_ok. rewrite read_and_wakeup_from_eq. simpl.
  destruct (messages chan); simpl; lia.
Qed.

Lemma chan_ok_pushed chan vals :
  chan_ok chan → length vals ≤ free_space chan → chan_ok (pushed chan vals).
Proof.
  unfold chan_ok, free_space, pushed. simpl. rewrite length_app. lia.
Qed.

Lemma chan_ok_send_v_loop data n i chan :
  chan_ok chan → chan_ok (send_v_loop data n i chan).1.2.
Proof.
  intros Hok. rewrite send_v_loop_eq. simpl. apply chan_ok_pushed; [done |].
  rewrite length_fmap, length_seq. lia.
Qed.

Lemma chan_ok_recv_v_loop n : ∀ i b chan,
  chan_ok chan → chan_ok (recv_v_loop n i b chan).1.2.
Proof.
  induction n as [|n IH]; intros i b chan Hok; simpl; [done |].
  destruct (messages chan) eqn:Hm; [done |].
  destruct (read_and_wakeup_from b chan) as [[[v chan1] bq] woken1] eqn:Hr.
  assert (chan_ok chan1) as Hok1.
  { pose proof (chan_ok_read b chan Hok) as H. by rewrite Hr in H. }
  specialize (IH (S i) (mk_bus (channels b) bq) chan1 Hok1).
  destruct (recv_v_loop n (S i) (mk_bus (channels b) bq) chan1)
    as [[[[i' out] bus2] chan2] woken2].
  done.
Qed.

Lemma bus_ok_lookup b d chan :
  bus_ok b → get_chanel_from b d = Some chan → chan_ok chan.
Proof.
  unfold bus_ok. rewrite Forall_lookup. intros Hok [_ Hl]%get_chanel_from_Some.
  apply (Hok _ _ Hl).
Qed.

Lemma bus_ok_store w p chan bq woken :
  bus_ok (bus w) → chan_ok chan → bus_ok (bus (store_chan w p chan bq woken)).
Proof. unfold bus_ok. simpl. intros Hok Hc. by apply Forall_insert. Qed.

Lemma bus_ok_errno_set w err :
  bus_ok (bus w) → bus_ok (bus (coro_bus_errno_set w err)).
Proof. done. Qed.

Lemma new_world_ok : bus_ok (bus new_world).
Proof. constructor. Defined.

Section invariant.
Variable w : world.
Hypothesis Hok : bus_ok (bus w).

Lemma bus_ok_try_send channel data :
  bus_ok (bus (coro_bus_try_send w channel data).2).
Proof.
  unfold coro_bus_try_send.
  destruct (get_chanel_from (bus w) channel) as [chan|] eqn:Hc; [| done].
  destruct (have_free_space chan) eqn:Hf; simpl; [| done].
  pose proof (chan_ok_send chan data Hf) as Hs.
  destruct (send_and_wakeup_to chan data). by apply bus_ok_store.
Qed.

Lemma bus_ok_try_recv channel :
  bus_ok (bus (coro_bus_try_recv w channel).2).
Proof.
  unfold coro_bus_try_recv.
  destruct (get_chanel_from (bus w) channel) as [chan|] eqn:Hc; [| done].
  destruct (messages chan) eqn:Hm; [done |].
  pose proof (chan_ok_read (bus w) chan (bus_ok_lookup _ _ _ Hok Hc)) as Hr.
  destruct (read_and_wakeup_from (bus w) chan) as [[[v chan'] bq] woken].
  by apply bus_ok_store.
Qed.

Lemma bus_ok_try_broadcast data :
  bus_ok (bus (coro_bus_try_broadcast w data).2).
Proof.
  rewrite try_broadcast_eq.
  destruct (collect_alive (channels (bus w)) 0 []) as [[|p alive]|] eqn:Ha;
    [done | | done].
  apply collect_alive_Some_free in Ha.
  unfold bus_ok. simpl. apply Forall_fmap.
  eapply Forall_impl; [exact Ha |].
  intros [chan|] Hfree; simpl; [| done].
  apply chan_ok_send, Hfree. done.
Qed.

Lemma bus_ok_try_send_v channel data count :
  bus_ok (bus (coro_bus_try_send_v w channel data count).2).
Proof.
  unfold coro_bus_try_send_v.
  destruct (get_chanel_from (bus w) channel) as [chan|] eqn:Hc; [| done].
  pose proof (chan_ok_send_v_loop data count 0 chan (bus_ok_lookup _ _ _ Hok Hc)) as Hl.
  destruct (send_v_loop data count 0 chan) as [[i chan'] woken].
  destruct (i =? 0); cbn [snd]; [apply bus_ok_errno_set |]; by apply bus_ok_store.
Qed.

Lemma bus_ok_try_recv_v channel capacity :
  bus_ok (bus (coro_bus_try_recv_v w channel capacity).2).
Proof.
  unfold coro_bus_try_recv_v.
  destruct (get_chanel_from (bus w) channel) as [chan|] eqn:Hc; [| done].
  pose proof (chan_ok_recv_v_loop capacity 0 (bus w) chan
                (bus_ok_lookup _ _ _ Hok Hc)) as Hl.
  destruct (recv_v_loop capacity 0 (bus w) chan) as [[[[i out] b'] chan'] woken].
  destruct (i =? 0); cbn [snd]; [apply bus_ok_errno_set |]; by apply bus_ok_store.
Qed.

Lemma bus_ok_channel_open size_limit :
  bus_ok (bus (coro_bus_channel_open w size_limit).2).
Proof.
  unfold coro_bus_channel_open, bus_ok.
  assert (slot_ok (Some (mk_channel size_limit [] [] []))) as Hnew
    by (unfold slot_ok, chan_ok; simpl; lia).
  destruct (open_scan (channels (bus w)) 0 (-1) =? -1)%Z; simpl;
    (apply Forall_insert; [| exact Hnew]); [| exact Hok].
  apply Forall_app. split; [exact Hok | by constructor].
Qed.

Lemma bus_ok_channel_close channel :
  bus_ok (bus (coro_bus_channel_close w channel)).
Proof.
  unfold coro_bus_channel_close.
  destruct (get_chanel_from (bus w) channel) as [chan|]; [| done].
  destruct (wakeup_coro_queue (send_queue chan)).
  destruct (wakeup_coro_queue (recv_queue chan)).
  unfold bus_ok. simpl. by apply Forall_insert.
Qed.

Lemma bus_ok_run_op o : bus_ok (bus (run_op w o)).
Proof.
  destruct o; simpl;
    auto using bus_ok_try_send, bus_ok_try_recv, bus_ok_try_broadcast,
      bus_ok_try_send_v, bus_ok_try_recv_v, bus_ok_channel_open,
      bus_ok_channel_close.
Qed.
End invariant.

Lemma bus_ok_run_ops ops : ∀ w, bus_ok (bus w) → bus_ok (bus (run_ops w ops)).
Proof.
  induction ops as [|o ops IH]; intros w Hok; simpl; [done |].
  apply IH. by apply bus_ok_run_op.
Qed.

(** Every bus built from [coro_bus_new] by the operations satisfies the
    invariant. *)
Lemma bus_ok_reachable ops : bus_ok (bus (run_ops new_world ops)).
Proof. apply bus_ok_run_ops, new_world_ok. Qed.

(** C5. Starting from a bus whose channels all satisfy
    [length messages ≤ size_limit] (the bus of [coro_bus_new] does), after
    any sequence of try_send, try_recv, try_broadcast, try_send_v,
    try_recv_v, open and close calls every open channel again has
    [0 ≤ length messages ≤ size_limit]. *)
Theorem queue_within_capacity (w : world) (ops : list op) (channel : Z)
    (chan : coro_bus_channel) :
  bus_ok (bus w) →
  get_chanel_from (bus (run_ops w ops)) channel = Some chan →
  0 ≤ length (messages chan) ≤ size_limit chan.
Proof.
  intros Hok Hc. split; [lia |].
  apply (bus_ok_lookup (bus (run_ops w ops)) channel); [| done].
  by apply bus_ok_run_ops.
Qed.

Lemma queue_within_capacity_witness :
  get_chanel_from (bus (run_ops new_world overfill)) 0
  = Some (mk_channel 2 [] [] [1; 2]%Z)
  ∧ 0 ≤ length [1; 2]%Z ≤ 2.
Proof.
  split; [reflexivity |].
  apply (queue_within_capacity new_world overfill 0 (mk_channel 2 [] [] [1; 2]%Z)
           new_world_ok eq_refl).
Defined.

(** ** Opening a channel *)

Lemma highest_empty_Some chans j :
  highest_empty chans = Some j →
  chans !! j = Some None ∧ ∀ k, j < k → chans !! k ≠ Some None.
Proof.
  revert j. induction chans as [|slot rest IH]; intros j; simpl; [done |].
  destruct (highest_empty rest) as [j'|] eqn:Hh.
  - intros [= <-]. destruct (IH j' eq_refl) as [Hj Hk]. split; [done |].
    intros [|k] Hlt; [lia |]. simpl. apply Hk. lia.
  - destruct slot; [done |]. intros [= <-]. split; [done |].
    intros [|k] Hlt; [lia |]. simpl. intros Hl.
    clear IH. revert k Hl Hlt Hh. induction rest as [|s r IHr]; intros k Hl Hlt; [done |].
    simpl. destruct (highest_empty r) eqn:Hr; [done |].
    destruct s; [| done]. intros _.
    destruct k as [|k]; [done |]. simpl in Hl. apply (IHr k); [done | lia | done].
Qed.

Lemma highest_empty_None chans :
  highest_empty chans = None → ∀ k, chans !! k ≠ Some None.
Proof.
  induction chans as [|slot rest IH]; simpl; [done |].
  destruct (highest_empty rest); [done |]. destruct slot; [| done].
  intros _ [|k]; [done |]. simpl. by apply IH.
Qed.

Lemma highest_empty_unique chans j :
  chans !! j = Some None → (∀ k, j < k → chans !! k ≠ Some None) →
  highest_empty chans = Some j.
Proof.
  intros Hj Hk. destruct (highest_empty chans) as [j'|] eqn:Hh.
  - destruct (highest_empty_Some _ _ Hh) as [Hj' Hk'].
    destruct (Nat.lt_trichotomy j j') as [Hlt|[->|Hgt]]; [| done |].
    + by destruct (Hk _ Hlt).
    + by destruct (Hk' _ Hgt).
  - by destruct (highest_empty_None _ Hh j).
Qed.

(** The scan returns the last empty index, or the initial value when there
    is none, as long as every index fits in an [int]. *)
Lemma open_scan_eq chans : ∀ i d,
  (Z.of_nat (i + length chans) < 2 ^ 31)%Z →
  open_scan chans i d
  = match highest_empty chans with
    | Some j => Z.of_nat (i + j)
    | None => d
    end.
Proof.
  induction chans as [|slot rest IH]; intros i d Hlen; simpl in *; [done |].
  rewrite IH by lia.
  destruct (highest_empty rest) as [j|]; [f_equal; lia |].
  destruct slot; [done |]. rewrite int_of_size_t_small by lia. f_equal. lia.
Qed.

Lemma channel_open_reuse (w : world) (cap j : nat) :
  (Z.of_nat (length (channels (bus w))) < 2 ^ 31)%Z →
  highest_empty (channels (bus w)) = Some j →
  coro_bus_channel_open w cap
  = (Z.of_nat j,
     {| bus := mk_bus (<[j := Some (mk_channel cap [] [] [])]> (channels (bus w)))
                      (broadcast_queue (bus w));
        global_error := global_error w;
        trace := trace w |}).
Proof.
  intros Hlen Hh. unfold coro_bus_channel_open.
  rewrite open_scan_eq, Hh by (simpl; lia). simpl.
  destruct (Z.eqb_spec (Z.of_nat j) (-1)) as [?|_]; [lia |].
  apply highest_empty_Some in Hh as [Hj%lookup_lt_Some _].
  rewrite size_t_of_int_nonneg, Nat2Z.id by lia. done.
Qed.

Lemma channel_open_append (w : world) (cap : nat) :
  (Z.of_nat (length (channels (bus w))) < 2 ^ 31)%Z →
  highest_empty (channels (bus w)) = None →
  coro_bus_channel_open w cap
  = (Z.of_nat (length (channels (bus w))),
     {| bus := mk_bus (channels (bus w) ++ [Some (mk_channel cap [] [] [])])
                      (broadcast_queue (bus w));
        global_error := global_error w;
        trace := trace w |}).
Proof.
  intros Hlen Hh. unfold coro_bus_channel_open.
  rewrite open_scan_eq, Hh by (simpl; lia). simpl.
  rewrite length_app. simpl.
  replace (length (channels (bus w)) + 1 - 1) with (length (channels (bus w))) by lia.
  rewrite int_of_size_t_small, size_t_of_int_nonneg, Nat2Z.id by lia.
  rewrite insert_app_r_alt, Nat.sub_diag by lia. done.
Qed.

(** C1, as the code has it.  On a table whose indices fit in an [int]:
    when some slot is empty, [coro_bus_channel_open] places the new channel
    in the empty slot with the highest index and returns that index,
    without growing the table or touching another slot; in particular,
    after closing an open descriptor [d] the next open returns the highest
    empty index, which is at least [d]. *)
Theorem channel_open_highest_empty (w : world) (cap : nat) :
  (Z.of_nat (length (channels (bus w))) < 2 ^ 31)%Z →
  (∀ j, channels (bus w) !! j = Some None →
        (∀ k, j < k → channels (bus w) !! k ≠ Some None) →
        (coro_bus_channel_open w cap).1 = Z.of_nat j
        ∧ channels (bus (coro_bus_channel_open w cap).2)
          = <[j := Some (mk_channel cap [] [] [])]> (channels (bus w)))
  ∧ (∀ d chan, get_chanel_from (bus w) d = Some chan →
       let w1 := coro_bus_channel_close w d in
       let r := (coro_bus_channel_open w1 cap).1 in
       (d ≤ r)%Z
       ∧ channels (bus w1) !! Z.to_nat r = Some None
       ∧ (∀ k, Z.to_nat r < k → channels (bus w1) !! k ≠ Some None)
       ∧ channels (bus (coro_bus_channel_open w1 cap).2) !! Z.to_nat r
         = Some (Some (mk_channel cap [] [] []))).
Proof.
  intros Hlen. split.
  - intros j Hj Hk.
    by rewrite (channel_open_reuse w cap j Hlen (highest_empty_unique _ _ Hj Hk)).
  - intros d chan Hc w1 r.
    assert (channels (bus w1) !! Z.to_nat d = Some None
            ∧ length (channels (bus w1)) = length (channels (bus w))) as [Hd Hl].
    { subst w1. rewrite (channel_close_present _ _ _ Hc). simpl.
      apply get_chanel_from_Some in Hc as [_ Hs%lookup_lt_Some].
      split; [by apply list_lookup_insert_eq | apply length_insert]. }
    destruct (highest_empty (channels (bus w1))) as [j|] eqn:Hh;
      [| by destruct (highest_empty_None _ Hh (Z.to_nat d))].
    assert (r = Z.of_nat j) as ->
      by (subst r; rewrite (channel_open_reuse w1 cap j); [done | lia | done]).
    rewrite (channel_open_reuse w1 cap j) by (done || lia). simpl.
    rewrite Nat2Z.id.
    destruct (highest_empty_Some _ _ Hh) as [Hj Hk].
    split; [| split; [done | split; [done |]]].
    + apply get_chanel_from_Some in Hc as [Hd0 _].
      destruct (Nat.lt_ge_cases j (Z.to_nat d)) as [Hlt|Hge]; [| lia].
      by destruct (Hk _ Hlt).
    + apply list_lookup_insert_eq. by apply lookup_lt_Some in Hj.
Qed.

Lemma channel_open_highest_empty_witness :
  (coro_bus_channel_open world_gaps 5).1 = Z.of_nat 2
  ∧ channels (bus (coro_bus_channel_open world_gaps 5).2)
    = <[2 := Some (mk_channel 5 [] [] [])]> (channels (bus world_gaps)).
Proof.
  assert (Z.of_nat (length (channels (bus world_gaps))) < 2 ^ 31)%Z as Hlen
    by (vm_compute; reflexivity).
  destruct (channel_open_highest_empty world_gaps 5 Hlen) as [H _].
  apply H; [reflexivity |].
  intros [|[|[|k]]] Hk; simpl; (lia || discriminate).
Defined.

(** C1 as the specification states it (lowest empty index) fails: after
    opening descriptors 0, 1, 2 and closing 2 and then 0, descriptor 0 is
    the lowest empty index and was the one just closed, yet the next open
    returns 2, which is greater than 0, and slot 0 stays empty. *)
Lemma channel_open_lowest_counterexample :
  channels (bus world_gaps) = [None; Some (mk_channel 1 [] [] []); None]
  ∧ lowest_empty (channels (bus world_gaps)) = Some 0
  ∧ (coro_bus_channel_open world_gaps 5).1 = 2%Z
  ∧ ¬ ((coro_bus_channel_open world_gaps 5).1 ≤ 0)%Z
  ∧ channels (bus (coro_bus_channel_open world_gaps 5).2)
    = [None; Some (mk_channel 1 [] [] []); Some (mk_channel 5 [] [] [])].
Proof. repeat split. intros H. vm_compute in H. by apply H. Qed.

(** Descriptor reuse as in the specification's scenario: with descriptors
    0, 1, 2 open and 1 closed, the next open returns 1; with no empty slot
    a fresh one is appended. *)
Example channel_open_examples :
  (coro_bus_channel_open
     (run_ops new_world
        [OpChannelOpen 1; OpChannelOpen 1; OpChannelOpen 1; OpChannelClose 1]) 4).1
  = 1%Z
  ∧ (coro_bus_channel_open new_world 4).1 = 0%Z
  ∧ (coro_bus_channel_open (coro_bus_channel_open new_world 4).2 4).1 = 1%Z.
Proof. repeat split. Qed.

(** ** First-in first-out delivery *)

(** C9. On a channel of capacity 1 whose queue is empty, sending
    [v1 ... vn] in order, each send followed by a receive, makes every send
    and every receive return 0, the values received are exactly
    [v1 ... vn] in that order, and the queue is empty again at the end. *)
Theorem ping_pong_delivers_in_order (vs : list Z) : ∀ (w : world) (channel : Z)
    (chan : coro_bus_channel),
  get_chanel_from (bus w) channel = Some chan →
  size_limit chan = 1 →
  messages chan = [] →
  (ping_pong w channel vs).1 = (λ v, (0%Z, 0%Z, Some v)) <$> vs
  ∧ ∃ chan', get_chanel_from (bus (ping_pong w channel vs).2) channel = Some chan'
      ∧ size_limit chan' = 1 ∧ messages chan' = [].
Proof.
  induction vs as [|v vs IH]; intros w channel chan Hc Hcap Hm; simpl.
  - split; [done |]. by exists chan.
  - rewrite (try_send_success _ _ _ chan) by (done || rewrite Hm, Hcap; simpl; lia).
    rewrite send_and_wakeup_to_eq, Hm. simpl.
    set (chan1 := mk_channel _ _ _ [v]).
    set (w1 := store_chan w _ chan1 _ _).
    assert (get_chanel_from (bus w1) channel = Some chan1) as Hc1
      by by eapply get_chanel_from_store.
    rewrite (try_recv_success w1 channel chan1 v []) by done.
    set (chan2 := mk_channel _ _ _ []).
    set (w2 := store_chan w1 _ chan2 _ _).
    assert (get_chanel_from (bus w2) channel = Some chan2) as Hc2
      by by eapply get_chanel_from_store.
    destruct (IH w2 channel chan2 Hc2 Hcap eq_refl) as [Hr Hend].
    destruct (ping_pong w2 channel vs) as [rounds w3]. simpl in *.
    by rewrite Hr.
Qed.

Lemma ping_pong_delivers_in_order_witness :
  (ping_pong world_two 0 [7; 8; 9]%Z).1
  = (λ v, (0%Z, 0%Z, Some v)) <$> [7; 8; 9]%Z
  ∧ ∃ chan', get_chanel_from (bus (ping_pong world_two 0 [7; 8; 9]%Z).2) 0 = Some chan'
      ∧ size_limit chan' = 1 ∧ messages chan' = [].
Proof.
  apply (ping_pong_delivers_in_order [7; 8; 9]%Z world_two 0 chan_empty_1);
    reflexivity.
Defined.

Lemma attempt_in_flight channel vs s t :
  in_flight channel vs s → in_flight channel vs (attempt channel s t).
Proof.
  intros (chan & Hc & Hvs). destruct t; unfold attempt.
  - destruct (pending s) as [|v rest] eqn:Hp; [exists chan; by rewrite Hp |].
    destruct (Nat.lt_ge_cases (length (messages chan)) (size_limit chan)) as [Hf|Hf].
    + rewrite (try_send_success _ _ _ chan) by done. simpl.
      eexists. split; [by eapply get_chanel_from_store |].
      rewrite send_and_wakeup_to_eq. simpl.
      rewrite <- Hvs, <- !app_assoc. done.
    + rewrite (try_send_would_block _ _ _ chan) by done. simpl.
      by exists chan.
  - destruct (messages chan) as [|v rest] eqn:Hm.
    + rewrite (try_recv_would_block _ _ chan) by done. simpl.
      exists chan. by rewrite Hm.
    + rewrite (try_recv_success _ _ chan v rest) by done. simpl.
      eexists. split; [by eapply get_chanel_from_store |]. simpl.
      rewrite <- Hvs, <- !app_assoc. done.
Qed.

(** No loss, duplication or reordering under any schedule: the values
    received so far are always a prefix of the values handed to the
    sender. *)
Lemma fifo_any_schedule channel vs (schedule : list turn) :
  ∀ s, in_flight channel vs s →
       in_flight channel vs (fold_left (attempt channel) schedule s)
       ∧ received (fold_left (attempt channel) schedule s) `prefix_of` vs.
Proof.
  induction schedule as [|t schedule IH]; intros s Hs; simpl.
  - split; [done |]. destruct Hs as (chan & _ & <-). by eexists.
  - apply IH. by apply attempt_in_flight.
Qed.


(** ** Non-blocking receive *)

Lemma take_S_tail {A} (l : list A) (k : nat) :
  take 1 l ++ take k (tail l) = take (S k) l.
Proof. destruct l; simpl; [by rewrite take_nil | done]. Qed.

Lemma drop_S_tail {A} (l : list A) (k : nat) : drop k (tail l) = drop (S k) l.
Proof. destruct l; simpl; [by rewrite drop_nil | done]. Qed.

Lemma recv_v_loop_eq (n : nat) : ∀ (i : nat) (b : coro_bus) (chan : coro_bus_channel),
  let k := n `min` length (messages chan) in
  recv_v_loop n i b chan
  = (i + k, take k (messages chan),
     mk_bus (channels b) (drop (k - length (send_queue chan)) (broadcast_queue b)),
     mk_channel (size_limit chan) (drop k (send_queue chan)) (recv_queue chan)
                (drop k (messages chan)),
     Wakeup <$> take k (send_queue chan ++ broadcast_queue b)).
Proof.
  induction n as [|n IH]; intros i b chan; cbv zeta; cbn [recv_v_loop].
  - rewrite Nat.min_0_l, Nat.add_0_r. simpl. by destruct b, chan.
  - destruct (messages chan) as [|v rest] eqn:Hm.
    + cbn [length]. rewrite Nat.min_0_r, Nat.add_0_r. simpl. destruct b, chan.
      simpl in *. by rewrite Hm.
    + rewrite read_and_wakeup_from_eq, Hm. cbn [hd tail].
      rewrite IH. cbn [messages send_queue recv_queue size_limit broadcast_queue
                         channels length].
      assert (S n `min` S (length rest) = S (n `min` length rest)) as -> by lia.
      set (k := n `min` length rest).
      assert (i + S k = S i + k) as -> by lia.
      unfold woken_by_read.
      destruct (send_queue chan) as [|s sq]; simpl.
      * rewrite drop_nil, !Nat.sub_0_r.
        destruct (broadcast_queue b) as [|c bq]; simpl; [| done].
        by rewrite drop_nil, take_nil.
      * done.
Qed.

Lemma popped_0 chan : popped chan 0 = chan.
Proof. by destruct chan. Qed.

Lemma try_recv_seq_eq (k : nat) : ∀ (w : world) (channel : Z) (chan : coro_bus_channel),
  get_chanel_from (bus w) channel = Some chan →
  k ≤ length (messages chan) →
  try_recv_seq w channel k
  = ((λ v, (0%Z, Some v)) <$> take k (messages chan),
     store_chan w (Z.to_nat channel) (popped chan k) (parked_after (bus w) chan k)
       (Wakeup <$> take k (send_queue chan ++ broadcast_queue (bus w)))).
Proof.
  induction k as [|k IH]; intros w channel chan Hc Hk; cbn [try_recv_seq].
  - rewrite popped_0. unfold parked_after. simpl. f_equal. symmetry.
    apply store_chan_id. by apply get_chanel_from_Some in Hc as [_ ?].
  - destruct (messages chan) as [|v rest] eqn:Hm; simpl in Hk; [lia |].
    rewrite (try_recv_success _ _ chan v rest) by done.
    erewrite IH; [| by eapply get_chanel_from_store | simpl; lia].
    rewrite store_chan_store_chan. unfold popped, parked_after, woken_by_read.
    simpl. rewrite Hm. simpl. f_equal.
    destruct (send_queue chan) as [|s sq]; simpl.
    + rewrite !Nat.sub_0_r, drop_nil, drop_S_tail, <- fmap_app, take_S_tail.
      done.
    + done.
Qed.

Lemma try_recv_v_eq (w : world) (channel : Z) (chan : coro_bus_channel) (capacity : nat) :
  get_chanel_from (bus w) channel = Some chan →
  let k := capacity `min` length (messages chan) in
  coro_bus_try_recv_v w channel capacity
  = if k =? 0 then ((-1)%Z, [], coro_bus_errno_set w CORO_BUS_ERR_WOULD_BLOCK)
    else (int_of_size_t k, take k (messages chan),
          store_chan w (Z.to_nat channel) (popped chan k) (parked_after (bus w) chan k)
            (Wakeup <$> take k (send_queue chan ++ broadcast_queue (bus w)))).
Proof.
  intros Hc k. unfold coro_bus_try_recv_v. rewrite Hc, recv_v_loop_eq.
  fold k. cbn [Nat.add broadcast_queue].
  destruct (Nat.eqb_spec k 0) as [Hz|Hnz]; [| done].
  rewrite Hz. simpl. fold (popped chan 0). rewrite popped_0, store_chan_id; [done |].
  by apply get_chanel_from_Some in Hc as [_ ?].
Qed.

(** X1. [coro_bus_try_recv]: a descriptor that is negative, out of range
    or names an empty slot gives -1 with [CORO_BUS_ERR_NO_CHANNEL] and
    writes nothing; an existing channel with an empty queue gives -1 with
    [CORO_BUS_ERR_WOULD_BLOCK]; otherwise the head of the queue is written
    to the output and removed, 0 is returned, and the capacity, the
    receivers' queue, the error code and every other channel stay as they
    were. *)
Theorem try_recv_outcomes (w : world) (channel : Z) :
  ((channel < 0)%Z ∨ (Z.of_nat (length (channels (bus w))) ≤ channel)%Z
     ∨ channels (bus w) !! Z.to_nat channel = Some None →
   coro_bus_try_recv w channel
   = ((-1)%Z, None, coro_bus_errno_set w CORO_BUS_ERR_NO_CHANNEL))
  ∧ (∀ chan, get_chanel_from (bus w) channel = Some chan →
       (messages chan = [] →
        coro_bus_try_recv w channel
        = ((-1)%Z, None, coro_bus_errno_set w CORO_BUS_ERR_WOULD_BLOCK))
       ∧ (∀ v rest, messages chan = v :: rest →
          ∃ w' chan',
            coro_bus_try_recv w channel = (0%Z, Some v, w')
            ∧ get_chanel_from (bus w') channel = Some chan'
            ∧ messages chan' = rest
            ∧ size_limit chan' = size_limit chan
            ∧ recv_queue chan' = recv_queue chan
            ∧ global_error w' = global_error w
            ∧ ∀ d, d ≠ channel →
                get_chanel_from (bus w') d = get_chanel_from (bus w) d)).
Proof.
  split.
  - intros Hbad%get_chanel_from_None. unfold coro_bus_try_recv. by rewrite Hbad.
  - intros chan Hc. split.
    + by apply try_recv_would_block.
    + intros v rest Hm. eexists _, _.
      split; [by apply (try_recv_success _ _ chan v rest) |].
      split; [by eapply get_chanel_from_store |].
      repeat split. intros d Hd. by eapply get_chanel_from_store_ne.
Qed.

Example try_recv_examples :
  coro_bus_try_recv world_two 1
  = ((-1)%Z, None, coro_bus_errno_set world_two CORO_BUS_ERR_NO_CHANNEL)
  ∧ coro_bus_try_recv world_two 0
    = ((-1)%Z, None, coro_bus_errno_set world_two CORO_BUS_ERR_WOULD_BLOCK)
  ∧ (coro_bus_try_recv world_two 2).1 = (0%Z, Some 40%Z)
  ∧ get_chanel_from (bus (coro_bus_try_recv world_two 2).2) 2
    = Some (mk_channel 2 [] [12; 13] [41%Z]).
Proof. repeat split. Qed.

(** ** Vectorised receive as successive receives *)

(** X2. When [coro_bus_try_recv_v] with an [unsigned] [capacity] returns
    [k > 0], then [k] is the smaller of [capacity] and the queue length, the
    values written are the first [k] messages of the queue in order, the
    queue keeps the rest, and [k] successive [coro_bus_try_recv] calls from
    the same initial state each return 0, read the same values and end in
    the same state. *)
Theorem try_recv_v_as_try_recvs (w : world) (channel : Z) (capacity : nat)
    (k : Z) (out : list Z) (w' : world) :
  (Z.of_nat capacity < 2 ^ 32)%Z →
  coro_bus_try_recv_v w channel capacity = (k, out, w') →
  (0 < k)%Z →
  try_recv_seq w channel (Z.to_nat k) = ((λ v, (0%Z, Some v)) <$> out, w')
  ∧ ∃ chan chan',
      get_chanel_from (bus w) channel = Some chan
      ∧ Z.to_nat k = capacity `min` length (messages chan)
      ∧ out = take (Z.to_nat k) (messages chan)
      ∧ get_chanel_from (bus w') channel = Some chan'
      ∧ messages chan' = drop (Z.to_nat k) (messages chan).
Proof.
  intros Hu Hv Hk.
  destruct (get_chanel_from (bus w) channel) as [chan|] eqn:Hc.
  2:{ unfold coro_bus_try_recv_v in Hv. rewrite Hc in Hv.
      injection Hv as <- _ _. lia. }
  rewrite (try_recv_v_eq _ _ chan) in Hv by done. cbv zeta in Hv.
  set (kn := capacity `min` length (messages chan)) in *.
  destruct (Nat.eqb_spec kn 0) as [Hz|Hnz]; [injection Hv as <- _ _; lia |].
  injection Hv as <- <- <-.
  assert (kn ≤ capacity) as Hle by (subst kn; lia).
  rewrite int_of_size_t_pos in * by (done || lia).
  rewrite Nat2Z.id. split.
  - by rewrite (try_recv_seq_eq kn w channel chan) by (done || subst kn; lia).
  - exists chan, (popped chan kn).
    split; [done |]. split; [done |]. split; [done |]. split; [| done].
    by eapply get_chanel_from_store.
Qed.

Lemma try_recv_v_as_try_recvs_witness :
  try_recv_seq world_two 2 (Z.to_nat 2)
  = ((λ v, (0%Z, Some v)) <$> [40; 41]%Z, (coro_bus_try_recv_v world_two 2 5).2)
  ∧ ∃ chan chan',
      get_chanel_from (bus world_two) 2 = Some chan
      ∧ Z.to_nat 2 = 5 `min` length (messages chan)
      ∧ [40; 41]%Z = take (Z.to_nat 2) (messages chan)
      ∧ get_chanel_from (bus (coro_bus_try_recv_v world_two 2 5).2) 2 = Some chan'
      ∧ messages chan' = drop (Z.to_nat 2) (messages chan).
Proof.
  apply (try_recv_v_as_try_recvs world_two 2 5 2 [40; 41]%Z); reflexivity.
Defined.

(** ** Order of wake-ups *)

(** X3. On an existing channel, [k] successful sends wake the first [k]
    coroutines of its [recv_queue], in queue order, and leave the others
    queued; [k] successful receives wake the first [k] coroutines of its
    [send_queue] followed by the bus's [broadcast_queue], in that order, and
    leave the others queued: waiters are resumed in the order in which they
    were queued, senders before broadcasters. *)
Theorem waiters_woken_in_order (w : world) (channel : Z) (chan : coro_bus_channel) :
  get_chanel_from (bus w) channel = Some chan →
  (∀ vals, length vals ≤ free_space chan →
     let w' := (try_send_seq w channel vals).2 in
     trace w' = trace w ++ (Wakeup <$> take (length vals) (recv_queue chan))
     ∧ (recv_queue <$> get_chanel_from (bus w') channel)
       = Some (drop (length vals) (recv_queue chan))
     ∧ broadcast_queue (bus w') = broadcast_queue (bus w))
  ∧ (∀ k, k ≤ length (messages chan) →
       let w' := (try_recv_seq w channel k).2 in
       trace w' = trace w
                  ++ (Wakeup <$> take k (send_queue chan ++ broadcast_queue (bus w)))
       ∧ (send_queue <$> get_chanel_from (bus w') channel)
         = Some (drop k (send_queue chan))
       ∧ broadcast_queue (bus w')
         = drop (k - length (send_queue chan)) (broadcast_queue (bus w))).
Proof.
  intros Hc. split.
  - intros vals Hlen w'. subst w'.
    rewrite (try_send_seq_eq _ _ chan) by done. cbn [snd].
    split; [done |]. split; [| done].
    by erewrite get_chanel_from_store.
  - intros k Hk w'. subst w'.
    rewrite (try_recv_seq_eq k _ _ chan) by done. cbn [snd].
    split; [done |]. split; [| done].
    by erewrite get_chanel_from_store.
Qed.

Lemma waiters_woken_in_order_witness :
  trace (try_recv_seq world_two 2 2).2 = [Wakeup 11; Wakeup 21]
  ∧ (send_queue <$> get_chanel_from (bus (try_recv_seq world_two 2 2).2) 2) = Some []
  ∧ broadcast_queue (bus (try_recv_seq world_two 2 2).2) = [22].
Proof.
  destruct (waiters_woken_in_order world_two 2 chan_full_2 eq_refl) as [_ H].
  apply (H 2). simpl. lia.
Defined.

(** ** Vectorised round trip *)

(** X4. On an existing channel with room for [count] more messages
    ([count > 0], capacity below 2^31), [coro_bus_try_send_v] of [count]
    values accepts them all, and a following [coro_bus_try_recv_v] with room
    for the whole queue returns what was queued before followed by those
    values, in order, and leaves the queue empty. *)
Theorem send_v_recv_v_roundtrip (w : world) (channel : Z) (chan : coro_bus_channel)
    (data : list Z) (count : nat) :
  get_chanel_from (bus w) channel = Some chan →
  count ≤ length data →
  0 < count →
  length (messages chan) + count ≤ size_limit chan →
  (Z.of_nat (size_limit chan) < 2 ^ 31)%Z →
  let sent := coro_bus_try_send_v w channel data count in
  let got := coro_bus_try_recv_v sent.2 channel (length (messages chan) + count) in
  sent.1 = Z.of_nat count
  ∧ got.1.1 = Z.of_nat (length (messages chan) + count)
  ∧ got.1.2 = messages chan ++ take count data
  ∧ (messages <$> get_chanel_from (bus got.2) channel) = Some [].
Proof.
  intros Hc Hcount Hpos Hroom Hcap sent got. subst got sent.
  rewrite (try_send_v_eq _ _ chan) by done. cbv zeta.
  assert (count `min` free_space chan = count) as -> by (unfold free_space; lia).
  destruct (Nat.eqb_spec count 0) as [?|_]; [lia |]. cbn [fst snd].
  set (w1 := store_chan w _ _ _ _).
  assert (get_chanel_from (bus w1) channel = Some (pushed chan (take count data)))
    as Hc1 by by eapply get_chanel_from_store.
  rewrite (try_recv_v_eq _ _ _ _ Hc1). cbv zeta.
  assert (length (messages (pushed chan (take count data)))
          = length (messages chan) + count) as Hlen
    by (simpl; rewrite length_app, length_take; lia).
  rewrite Hlen, Nat.min_id.
  destruct (Nat.eqb_spec (length (messages chan) + count) 0) as [?|_]; [lia |].
  cbn [fst snd]. rewrite !int_of_size_t_small by lia.
  split; [done |]. split; [done |]. split.
  - rewrite <- Hlen. by rewrite firstn_all.
  - erewrite get_chanel_from_store by done. simpl.
    rewrite <- Hlen. simpl. by rewrite drop_all.
Qed.

Lemma send_v_recv_v_roundtrip_witness :
  let sent := coro_bus_try_send_v world_vec 0 [5; 6; 7]%Z 2 in
  let got := coro_bus_try_recv_v sent.2 0 (1 + 2) in
  sent.1 = Z.of_nat 2
  ∧ got.1.1 = Z.of_nat (1 + 2)
  ∧ got.1.2 = [9; 5; 6]%Z
  ∧ (messages <$> get_chanel_from (bus got.2) 0) = Some [].
Proof.
  apply (send_v_recv_v_roundtrip world_vec 0 (mk_channel 3 [] [31; 32; 33] [9%Z])
           [5; 6; 7]%Z 2);
    [reflexivity | simpl; lia | lia | simpl; lia | reflexivity].
Defined.

(** ** Opening and the table *)

Lemma get_chanel_from_app_new (chans : list (option coro_bus_channel)) bq new d :
  get_chanel_from (mk_bus (chans ++ [Some new]) bq) d
  = if (d =? Z.of_nat (length chans))%Z then Some new
    else get_chanel_from (mk_bus chans bq) d.
Proof.
  unfold get_chanel_from. simpl. rewrite length_app. simpl.
  destruct (Z.eqb_spec d (Z.of_nat (length chans))) as [->|Hne].
  - destruct (Z.ltb_spec (Z.of_nat (length chans)) 0); [lia |].
    destruct (Z.leb_spec (Z.of_nat (length chans + 1)) (Z.of_nat (length chans)));
      [lia |].
    rewrite Nat2Z.id, lookup_app_r, Nat.sub_diag by lia. done.
  - destruct (Z.ltb_spec d 0); [done |].
    destruct (Z.leb_spec (Z.of_nat (length chans + 1)) d),
             (Z.leb_spec (Z.of_nat (length chans)) d); try lia; [done |].
    rewrite lookup_app_l by lia. done.
Qed.

Lemma get_chanel_from_insert (chans : list (option coro_bus_channel)) bq j slot d :
  j < length chans →
  get_chanel_from (mk_bus (<[j := slot]> chans) bq) d
  = if (d =? Z.of_nat j)%Z then slot else get_chanel_from (mk_bus chans bq) d.
Proof.
  intros Hj. unfold get_chanel_from. simpl. rewrite length_insert.
  destruct (Z.eqb_spec d (Z.of_nat j)) as [->|Hne].
  - destruct (Z.ltb_spec (Z.of_nat j) 0); [lia |].
    destruct (Z.leb_spec (Z.of_nat (length chans)) (Z.of_nat j)); [lia |].
    rewrite Nat2Z.id, list_lookup_insert_eq by done. done.
  - destruct (Z.ltb_spec d 0); [done |].
    destruct (Z.leb_spec (Z.of_nat (length chans)) d); [done |].
    rewrite list_lookup_insert_ne by lia. done.
Qed.

Lemma bus_eta (b : coro_bus) : mk_bus (channels b) (broadcast_queue b) = b.
Proof. by destruct b. Qed.

(** X5. On a table with fewer than 2^31 - 1 slots, [coro_bus_channel_open]
    returns a descriptor that is non-negative, was not in use, and now
    names an empty channel of the requested capacity with no waiters; every
    other descriptor, the broadcast queue, the error code and the trace are
    as before; the table grows by one slot exactly when it had no empty
    slot, in which case the descriptor is the old table length. *)
Theorem channel_open_fresh (w : world) (cap : nat) :
  (Z.of_nat (length (channels (bus w))) < 2 ^ 31 - 1)%Z →
  let r := (coro_bus_channel_open w cap).1 in
  let w' := (coro_bus_channel_open w cap).2 in
  (0 ≤ r)%Z
  ∧ get_chanel_from (bus w) r = None
  ∧ get_chanel_from (bus w') r = Some (mk_channel cap [] [] [])
  ∧ (∀ d, d ≠ r → get_chanel_from (bus w') d = get_chanel_from (bus w) d)
  ∧ broadcast_queue (bus w') = broadcast_queue (bus w)
  ∧ global_error w' = global_error w
  ∧ trace w' = trace w
  ∧ ((∀ k, channels (bus w) !! k ≠ Some None) →
     r = Z.of_nat (length (channels (bus w)))
     ∧ length (channels (bus w')) = S (length (channels (bus w))))
  ∧ ((∃ k, channels (bus w) !! k = Some None) →
     length (channels (bus w')) = length (channels (bus w))).
Proof.
  intros Hlen r w'. subst r w'.
  destruct (highest_empty (channels (bus w))) as [j|] eqn:Hh.
  - rewrite (channel_open_reuse w cap j) by (done || lia). cbn [fst snd bus].
    destruct (highest_empty_Some _ _ Hh) as [Hj Hk].
    pose proof (lookup_lt_Some _ _ _ Hj) as Hjl.
    split; [lia |]. split.
    { apply get_chanel_from_None. right. right. by rewrite Nat2Z.id. }
    split; [by rewrite get_chanel_from_insert, Z.eqb_refl |].
    split.
    { intros d Hd. rewrite get_chanel_from_insert by done.
      destruct (Z.eqb_spec d (Z.of_nat j)); [done |]. by rewrite bus_eta. }
    do 3 (split; [done |]). split.
    + intros Hnone. by destruct (Hnone j).
    + intros _. simpl. apply length_insert.
  - rewrite (channel_open_append w cap) by (done || lia). cbn [fst snd bus].
    split; [lia |]. split.
    { apply get_chanel_from_None. right. left. lia. }
    split; [by rewrite get_chanel_from_app_new, Z.eqb_refl |].
    split.
    { intros d Hd. rewrite get_chanel_from_app_new.
      destruct (Z.eqb_spec d (Z.of_nat (length (channels (bus w))))); [done |].
      by rewrite bus_eta. }
    do 3 (split; [done |]). split.
    + intros _. split; [done |]. simpl. rewrite length_app. simpl. lia.
    + intros [k Hk]. by destruct (highest_empty_None _ Hh k).
Qed.

Lemma channel_open_fresh_witness :
  let r := (coro_bus_channel_open world_two 4).1 in
  let w' := (coro_bus_channel_open world_two 4).2 in
  (0 ≤ r)%Z
  ∧ get_chanel_from (bus world_two) r = None
  ∧ get_chanel_from (bus w') r = Some (mk_channel 4 [] [] [])
  ∧ (∀ d, d ≠ r → get_chanel_from (bus w') d = get_chanel_from (bus world_two) d)
  ∧ broadcast_queue (bus w') = broadcast_queue (bus world_two)
  ∧ global_error w' = global_error world_two
  ∧ trace w' = trace world_two
  ∧ ((∀ k, channels (bus world_two) !! k ≠ Some None) →
     r = Z.of_nat (length (channels (bus world_two)))
     ∧ length (channels (bus w')) = S (length (channels (bus world_two))))
  ∧ ((∃ k, channels (bus world_two) !! k = Some None) →
     length (channels (bus w')) = length (channels (bus world_two))).
Proof. apply (channel_open_fresh world_two 4). reflexivity. Defined.

(** X6. On a table with fewer than 2^31 - 1 slots, opening a channel and
    closing the returned descriptor at once leaves every descriptor, the
    broadcast queue and the error code as they were before the open; the
    only runtime call is the yield of the close. *)
Theorem channel_open_close_roundtrip (w : world) (cap : nat) :
  (Z.of_nat (length (channels (bus w))) < 2 ^ 31 - 1)%Z →
  let opened := coro_bus_channel_open w cap in
  let w' := coro_bus_channel_close opened.2 opened.1 in
  (∀ d, get_chanel_from (bus w') d = get_chanel_from (bus w) d)
  ∧ broadcast_queue (bus w') = broadcast_queue (bus w)
  ∧ global_error w' = global_error w
  ∧ trace w' = trace w ++ [Yield].
Proof.
  intros Hlen opened w'. subst w' opened.
  destruct (highest_empty (channels (bus w))) as [j|] eqn:Hh.
  - rewrite (channel_open_reuse w cap j) by (done || lia). cbn [fst snd].
    destruct (highest_empty_Some _ _ Hh) as [Hj Hk].
    pose proof (lookup_lt_Some _ _ _ Hj) as Hjl.
    erewrite channel_close_present
      by (cbn [bus]; by rewrite get_chanel_from_insert, Z.eqb_refl).
    cbn [bus channels broadcast_queue global_error trace send_queue recv_queue
         fmap list_fmap app].
    rewrite Nat2Z.id, list_insert_insert_eq, list_insert_id by done.
    split; [| done]. intros d. by rewrite bus_eta.
  - rewrite (channel_open_append w cap) by (done || lia). cbn [fst snd].
    erewrite channel_close_present
      by (cbn [bus]; by rewrite get_chanel_from_app_new, Z.eqb_refl).
    cbn [bus channels broadcast_queue global_error trace send_queue recv_queue
         fmap list_fmap app].
    rewrite Nat2Z.id, insert_app_r_alt, Nat.sub_diag by lia. cbn [insert list_insert].
    split; [| done]. intros d.
    unfold get_chanel_from. cbn [channels]. rewrite length_app. simpl.
    destruct (Z.ltb_spec d 0); [done |].
    destruct (Z.leb_spec (Z.of_nat (length (channels (bus w)) + 1)) d),
             (Z.leb_spec (Z.of_nat (length (channels (bus w)))) d); try lia; try done.
    + assert (Z.to_nat d = length (channels (bus w))) as -> by lia.
      by rewrite lookup_app_r, Nat.sub_diag by lia.
    + by rewrite lookup_app_l by lia.
Qed.

Lemma channel_open_close_roundtrip_witness :
  let opened := coro_bus_channel_open world_two 4 in
  let w' := coro_bus_channel_close opened.2 opened.1 in
  (∀ d, get_chanel_from (bus w') d = get_chanel_from (bus world_two) d)
  ∧ broadcast_queue (bus w') = broadcast_queue (bus world_two)
  ∧ global_error w' = global_error world_two
  ∧ trace w' = trace world_two ++ [Yield].
Proof. apply (channel_open_close_roundtrip world_two 4). reflexivity. Defined.

(** ** What the try-forms leave alone *)

Lemma same_descriptors_refl b : same_descriptors b b.
Proof. by split. Qed.

Lemma same_descriptors_store (w : world) (d0 : Z) chan chan' bq woken :
  get_chanel_from (bus w) d0 = Some chan →
  size_limit chan' = size_limit chan →
  same_descriptors (bus w) (bus (store_chan w (Z.to_nat d0) chan' bq woken)).
Proof.
  intros Hc Hs. split; [simpl; apply length_insert |].
  intros d. destruct (decide (d = d0)) as [->|Hne].
  - erewrite get_chanel_from_store by done. rewrite Hc. simpl. by f_equal.
  - by erewrite get_chanel_from_store_ne.
Qed.

Lemma same_descriptors_run_op (w : world) (o : op) :
  is_try_form o = true → same_descriptors (bus w) (bus (run_op w o)).
Proof.
  destruct o as [channel data|channel|data|channel data count|channel capacity| |];
    [| | | | | done | done]; intros _; cbn [run_op].
  - unfold coro_bus_try_send.
    destruct (get_chanel_from (bus w) channel) as [chan|] eqn:Hc;
      [| apply same_descriptors_refl].
    destruct (have_free_space chan); cbn [negb]; [| apply same_descriptors_refl].
    rewrite send_and_wakeup_to_eq. by eapply same_descriptors_store.
  - unfold coro_bus_try_recv.
    destruct (get_chanel_from (bus w) channel) as [chan|] eqn:Hc;
      [| apply same_descriptors_refl].
    destruct (messages chan) eqn:Hm; [apply same_descriptors_refl |].
    rewrite read_and_wakeup_from_eq. by eapply same_descriptors_store.
  - rewrite try_broadcast_eq.
    destruct (collect_alive (channels (bus w)) 0 []) as [[|p alive]|];
      [apply same_descriptors_refl | | apply same_descriptors_refl].
    cbn [snd bus]. split; [simpl; apply length_fmap |].
    intros d. unfold get_chanel_from. cbn [channels]. rewrite length_fmap.
    destruct (d <? 0)%Z; [done |].
    destruct (Z.of_nat (length (channels (bus w))) <=? d)%Z; [done |].
    rewrite list_lookup_fmap.
    destruct (channels (bus w) !! Z.to_nat d) as [[chan|]|]; simpl; [| done | done].
    by rewrite send_and_wakeup_to_eq.
  - unfold coro_bus_try_send_v.
    destruct (get_chanel_from (bus w) channel) as [chan|] eqn:Hc;
      [| apply same_descriptors_refl].
    rewrite send_v_loop_eq. cbv zeta.
    destruct (0 + count `min` free_space chan =? 0); cbn [snd];
      by eapply same_descriptors_store.
  - unfold coro_bus_try_recv_v.
    destruct (get_chanel_from (bus w) channel) as [chan|] eqn:Hc;
      [| apply same_descriptors_refl].
    rewrite recv_v_loop_eq. cbv zeta.
    destruct (0 + capacity `min` length (messages chan) =? 0); cbn [snd];
      by eapply same_descriptors_store.
Qed.

(** X7. An operation other than open and close changes neither the length
    of the channel table, nor which descriptors name a channel, nor the
    capacity of any channel. *)
Theorem try_forms_keep_descriptors (w : world) (o : op) (d : Z) :
  is_try_form o = true →
  length (channels (bus (run_op w o))) = length (channels (bus w))
  ∧ size_limit <$> get_chanel_from (bus (run_op w o)) d
    = size_limit <$> get_chanel_from (bus w) d.
Proof.
  intros Ho. destruct (same_descriptors_run_op w o Ho) as [Hl Hd]. by split.
Qed.

Lemma try_forms_keep_descriptors_witness :
  length (channels (bus (run_op world_two (OpTryBroadcast 9))))
  = length (channels (bus world_two))
  ∧ size_limit <$> get_chanel_from (bus (run_op world_two (OpTryBroadcast 9))) 2
    = size_limit <$> get_chanel_from (bus world_two) 2.
Proof. apply (try_forms_keep_descriptors world_two (OpTryBroadcast 9) 2 eq_refl). Defined.

Lemma run_op_length (w : world) (o : op) :
  length (channels (bus w)) ≤ length (channels (bus (run_op w o))).
Proof.
  destruct (is_try_form o) eqn:Ho.
  - destruct (same_descriptors_run_op w o Ho) as [-> _]. done.
  - destruct o as [| | | | |cap|channel]; try done; cbn [run_op].
    + unfold coro_bus_channel_open.
      destruct (open_scan (channels (bus w)) 0 (-1) =? -1)%Z; simpl;
        rewrite length_insert, ?length_app; simpl; lia.
    + unfold coro_bus_channel_close.
      destruct (get_chanel_from (bus w) channel) as [chan|]; [| done].
      destruct (wakeup_coro_queue (send_queue chan)),
               (wakeup_coro_queue (recv_queue chan)).
      simpl. by rewrite length_insert.
Qed.

(** X8. The channel table never shrinks: after any sequence of operations
    it has at least as many slots as before, so a descriptor that was in
    range stays in range. *)
Theorem table_never_shrinks (ops : list op) : ∀ w : world,
  length (channels (bus w)) ≤ length (channels (bus (run_ops w ops))).
Proof.
  induction ops as [|o ops IH]; intros w; simpl; [done |].
  etrans; [apply (run_op_length w o) | apply IH].
Qed.

Example table_never_shrinks_example :
  length (channels (bus (run_ops new_world
    [OpChannelOpen 1; OpChannelOpen 1; OpChannelClose 1; OpChannelClose 0]))) = 2.
Proof. reflexivity. Qed.

(** ** Failure leaves the bus alone *)

Lemma failed_cleanly_no_channel w :
  failed_cleanly w (coro_bus_errno_set w CORO_BUS_ERR_NO_CHANNEL).
Proof. eexists. split; [done | by left]. Qed.

Lemma failed_cleanly_would_block w :
  failed_cleanly w (coro_bus_errno_set w CORO_BUS_ERR_WOULD_BLOCK).
Proof. eexists. split; [done | by right]. Qed.

Lemma try_send_v_cases (w : world) (channel : Z) (data : list Z) (count : nat) :
  (Z.of_nat count < 2 ^ 31)%Z →
  let r := coro_bus_try_send_v w channel data count in
  ((0 < r.1)%Z ∧ global_error r.2 = global_error w)
  ∨ (r.1 = (-1)%Z ∧ failed_cleanly w r.2).
Proof.
  intros Hu r. subst r. unfold coro_bus_try_send_v.
  destruct (get_chanel_from (bus w) channel) as [chan|] eqn:Hc;
    [| right; split; [done | apply failed_cleanly_no_channel]].
  rewrite send_v_loop_eq. cbv zeta. cbn [Nat.add].
  destruct (Nat.eqb_spec (count `min` free_space chan) 0) as [Hz|Hnz]; cbn [fst snd].
  - right. split; [done |]. rewrite Hz. simpl. rewrite pushed_nil, store_chan_id.
    + apply failed_cleanly_would_block.
    + by apply get_chanel_from_Some in Hc as [_ ?].
  - left. rewrite int_of_size_t_small by lia. split; [lia | done].
Qed.

Lemma try_recv_v_cases (w : world) (channel : Z) (capacity : nat) :
  (Z.of_nat capacity < 2 ^ 31)%Z →
  let r := coro_bus_try_recv_v w channel capacity in
  ((0 < r.1.1)%Z ∧ Z.of_nat (length r.1.2) = r.1.1
   ∧ global_error r.2 = global_error w)
  ∨ (r.1.1 = (-1)%Z ∧ r.1.2 = [] ∧ failed_cleanly w r.2).
Proof.
  intros Hu r. subst r.
  destruct (get_chanel_from (bus w) channel) as [chan|] eqn:Hc.
  2:{ unfold coro_bus_try_recv_v. rewrite Hc. right.
      split; [done |]. split; [done | apply failed_cleanly_no_channel]. }
  rewrite (try_recv_v_eq _ _ chan) by done. cbv zeta.
  destruct (Nat.eqb_spec (capacity `min` length (messages chan)) 0) as [Hz|Hnz];
    cbn [fst snd].
  - right. split; [done |]. split; [done | apply failed_cleanly_would_block].
  - left. rewrite int_of_size_t_small by lia.
    split; [lia |]. split; [| done]. rewrite length_take. lia.
Qed.

(** X9. A try-form either succeeds and leaves the error code as it was, or
    returns -1 having changed nothing but the error code, which it sets to
    [CORO_BUS_ERR_NO_CHANNEL] or [CORO_BUS_ERR_WOULD_BLOCK]: a failed
    try_send, try_recv, try_broadcast, try_send_v or try_recv_v leaves every
    queue of the bus and the trace untouched and writes no output (counts
    below 2^31 for the vectorised forms). *)
Theorem try_forms_fail_cleanly (w : world) :
  (∀ channel data,
     let r := coro_bus_try_send w channel data in
     (r.1 = 0%Z ∧ global_error r.2 = global_error w)
     ∨ (r.1 = (-1)%Z ∧ failed_cleanly w r.2))
  ∧ (∀ channel,
       let r := coro_bus_try_recv w channel in
       (r.1.1 = 0%Z ∧ is_Some r.1.2 ∧ global_error r.2 = global_error w)
       ∨ (r.1.1 = (-1)%Z ∧ r.1.2 = None ∧ failed_cleanly w r.2))
  ∧ (∀ data,
       let r := coro_bus_try_broadcast w data in
       (r.1 = 0%Z ∧ global_error r.2 = global_error w)
       ∨ (r.1 = (-1)%Z ∧ failed_cleanly w r.2))
  ∧ (∀ channel data count,
       (Z.of_nat count < 2 ^ 31)%Z →
       let r := coro_bus_try_send_v w channel data count in
       ((0 < r.1)%Z ∧ global_error r.2 = global_error w)
       ∨ (r.1 = (-1)%Z ∧ failed_cleanly w r.2))
  ∧ (∀ channel capacity,
       (Z.of_nat capacity < 2 ^ 31)%Z →
       let r := coro_bus_try_recv_v w channel capacity in
       ((0 < r.1.1)%Z ∧ Z.of_nat (length r.1.2) = r.1.1
        ∧ global_error r.2 = global_error w)
       ∨ (r.1.1 = (-1)%Z ∧ r.1.2 = [] ∧ failed_cleanly w r.2)).
Proof.
  split; [| split; [| split; [| split]]].
  - intros channel data r. subst r. unfold coro_bus_try_send.
    destruct (get_chanel_from (bus w) channel) as [chan|];
      [| right; split; [done | apply failed_cleanly_no_channel]].
    destruct (have_free_space chan); cbn [negb];
      [| right; split; [done | apply failed_cleanly_would_block]].
    rewrite send_and_wakeup_to_eq. by left.
  - intros channel r. subst r. unfold coro_bus_try_recv.
    destruct (get_chanel_from (bus w) channel) as [chan|];
      [| right; split; [done |]; split; [done | apply failed_cleanly_no_channel]].
    destruct (messages chan);
      [right; split; [done |]; split; [done | apply failed_cleanly_would_block] |].
    rewrite read_and_wakeup_from_eq. left. split; [done |]. split; [by eexists | done].
  - intros data r. subst r. rewrite try_broadcast_eq.
    destruct (collect_alive (channels (bus w)) 0 []) as [[|p alive]|].
    + right. split; [done | apply failed_cleanly_no_channel].
    + by left.
    + right. split; [done | apply failed_cleanly_would_block].
  - apply try_send_v_cases.
  - apply try_recv_v_cases.
Qed.

(** ** Blocking send and receive *)

Lemma store_chan_park_send self w channel chan :
  get_chanel_from (bus w) channel = Some chan →
  store_chan (coro_bus_errno_set w CORO_BUS_ERR_WOULD_BLOCK) (Z.to_nat channel)
    (mk_channel (size_limit chan) (suspend_this_and_save_to self (send_queue chan))
                (recv_queue chan) (messages chan))
    (broadcast_queue (bus w)) []
  = park_on_send self w channel chan.
Proof. intros _. unfold store_chan, park_on_send. simpl. by rewrite app_nil_r. Qed.

Lemma store_chan_park_recv self w channel chan :
  get_chanel_from (bus w) channel = Some chan →
  store_chan (coro_bus_errno_set w CORO_BUS_ERR_WOULD_BLOCK) (Z.to_nat channel)
    (mk_channel (size_limit chan) (send_queue chan)
                (suspend_this_and_save_to self (recv_queue chan)) (messages chan))
    (broadcast_queue (bus w)) []
  = park_on_recv self w channel chan.
Proof. intros _. unfold store_chan, park_on_recv. simpl. by rewrite app_nil_r. Qed.

Lemma coro_bus_send_absent self w channel data :
  get_chanel_from (bus w) channel = None →
  coro_bus_send self w channel data
  = (Returned (-1), coro_bus_errno_set w CORO_BUS_ERR_NO_CHANNEL).
Proof. intros Hc. unfold coro_bus_send. by rewrite try_send_no_channel. Qed.

Lemma coro_bus_send_full self w channel data chan :
  get_chanel_from (bus w) channel = Some chan →
  size_limit chan ≤ length (messages chan) →
  coro_bus_send self w channel data = (Suspended, park_on_send self w channel chan).
Proof.
  intros Hc Hfull. unfold coro_bus_send.
  rewrite (try_send_would_block _ _ _ chan) by done. simpl.
  by rewrite Hc, store_chan_park_send.
Qed.

Lemma coro_bus_send_free self w channel data chan :
  get_chanel_from (bus w) channel = Some chan →
  length (messages chan) < size_limit chan →
  coro_bus_send self w channel data
  = (Returned 0, (coro_bus_try_send w channel data).2).
Proof.
  intros Hc Hfree. unfold coro_bus_send.
  by rewrite (try_send_success _ _ _ chan).
Qed.

Lemma coro_bus_recv_absent self w channel :
  get_chanel_from (bus w) channel = None →
  coro_bus_recv self w channel
  = (Returned (-1), None, coro_bus_errno_set w CORO_BUS_ERR_NO_CHANNEL).
Proof. intros Hc. unfold coro_bus_recv, coro_bus_try_recv. by rewrite Hc. Qed.

Lemma coro_bus_recv_empty self w channel chan :
  get_chanel_from (bus w) channel = Some chan →
  messages chan = [] →
  coro_bus_recv self w channel = (Suspended, None, park_on_recv self w channel chan).
Proof.
  intros Hc Hm. unfold coro_bus_recv.
  rewrite (try_recv_would_block _ _ chan) by done. simpl.
  by rewrite Hc, store_chan_park_recv.
Qed.

Lemma coro_bus_recv_ready self w channel chan v rest :
  get_chanel_from (bus w) channel = Some chan →
  messages chan = v :: rest →
  coro_bus_recv self w channel
  = (Returned 0, Some v, (coro_bus_try_recv w channel).2).
Proof.
  intros Hc Hm. unfold coro_bus_recv.
  by rewrite (try_recv_success _ _ chan v rest).
Qed.

(** X10. One run of the loop of [coro_bus_send] for the coroutine [self]:
    on a missing channel it returns -1 with [CORO_BUS_ERR_NO_CHANNEL]; on a
    channel with free space it returns 0 having done what
    [coro_bus_try_send] does; on a channel without free space it suspends
    with [self] added at the tail of the channel's [send_queue], the
    messages, the other queues and the trace unchanged.  So it never
    returns while the channel is full and never sets
    [CORO_BUS_ERR_NOT_IMPLEMENTED]. *)
Theorem coro_bus_send_outcomes (self : coro) (w : world) (channel data : Z) :
  (get_chanel_from (bus w) channel = None →
   coro_bus_send self w channel data
   = (Returned (-1), coro_bus_errno_set w CORO_BUS_ERR_NO_CHANNEL))
  ∧ (∀ chan, get_chanel_from (bus w) channel = Some chan →
       (length (messages chan) < size_limit chan →
        coro_bus_send self w channel data
        = (Returned 0, (coro_bus_try_send w channel data).2)
        ∧ (coro_bus_try_send w channel data).1 = 0%Z)
       ∧ (size_limit chan ≤ length (messages chan) →
          coro_bus_send self w channel data
          = (Suspended, park_on_send self w channel chan)))
  ∧ (global_error w ≠ CORO_BUS_ERR_NOT_IMPLEMENTED →
     global_error (coro_bus_send self w channel data).2 ≠ CORO_BUS_ERR_NOT_IMPLEMENTED).
Proof.
  split; [apply coro_bus_send_absent |]. split.
  - intros chan Hc. split.
    + intros Hfree. split; [by apply (coro_bus_send_free _ _ _ _ chan) |].
      by rewrite (try_send_success _ _ _ chan).
    + by apply coro_bus_send_full.
  - intros Herr.
    destruct (get_chanel_from (bus w) channel) as [chan|] eqn:Hc;
      [| by rewrite coro_bus_send_absent].
    destruct (Nat.lt_ge_cases (length (messages chan)) (size_limit chan)).
    + rewrite (coro_bus_send_free _ _ _ _ chan), (try_send_success _ _ _ chan) by done.
      done.
    + by rewrite (coro_bus_send_full _ _ _ _ chan).
Qed.

(** X11. One run of the loop of [coro_bus_recv] for the coroutine [self]:
    on a missing channel it returns -1 with [CORO_BUS_ERR_NO_CHANNEL]; on a
    channel holding a message it returns 0 with the head of the queue,
    having done what [coro_bus_try_recv] does; on an empty channel it
    writes nothing and suspends with [self] added at the tail of the
    channel's [recv_queue], everything else unchanged.  It never sets
    [CORO_BUS_ERR_NOT_IMPLEMENTED]. *)
Theorem coro_bus_recv_outcomes (self : coro) (w : world) (channel : Z) :
  (get_chanel_from (bus w) channel = None →
   coro_bus_recv self w channel
   = (Returned (-1), None, coro_bus_errno_set w CORO_BUS_ERR_NO_CHANNEL))
  ∧ (∀ chan, get_chanel_from (bus w) channel = Some chan →
       (∀ v rest, messages chan = v :: rest →
        coro_bus_recv self w channel
        = (Returned 0, Some v, (coro_bus_try_recv w channel).2))
       ∧ (messages chan = [] →
          coro_bus_recv self w channel
          = (Suspended, None, park_on_recv self w channel chan)))
  ∧ (global_error w ≠ CORO_BUS_ERR_NOT_IMPLEMENTED →
     global_error (coro_bus_recv self w channel).2 ≠ CORO_BUS_ERR_NOT_IMPLEMENTED).
Proof.
  split; [apply coro_bus_recv_absent |]. split.
  - intros chan Hc. split.
    + intros v rest Hm. by apply (coro_bus_recv_ready _ _ _ chan v rest).
    + by apply coro_bus_recv_empty.
  - intros Herr.
    destruct (get_chanel_from (bus w) channel) as [chan|] eqn:Hc;
      [| by rewrite coro_bus_recv_absent].
    destruct (messages chan) as [|v rest] eqn:Hm.
    + by rewrite (coro_bus_recv_empty _ _ _ chan).
    + rewrite (coro_bus_recv_ready _ _ _ chan v rest),
        (try_recv_success _ _ chan v rest) by done.
      done.
Qed.

Example blocking_examples :
  coro_bus_send 7 world_two 2 5 = (Suspended, park_on_send 7 world_two 2 chan_full_2)
  ∧ (send_queue <$> get_chanel_from (bus (coro_bus_send 7 world_two 2 5).2) 2)
    = Some [11; 7]
  ∧ (coro_bus_recv 7 world_two 0).1 = (Suspended, None)
  ∧ (recv_queue <$> get_chanel_from (bus (coro_bus_recv 7 world_two 0).2) 0)
    = Some [7]
  ∧ (coro_bus_recv 7 world_two 2).1 = (Returned 0, Some 40%Z)
  ∧ (coro_bus_send 7 world_two 1 5).1 = Returned (-1).
Proof. repeat split. Qed.

(** ** Blocking broadcast *)

Lemma collect_alive_full chans : ∀ i acc j chan,
  chans !! j = Some (Some chan) →
  have_free_space chan = false →
  collect_alive chans i acc = None.
Proof.
  induction chans as [|[c|] rest IH]; intros i acc j chan Hj Hf; [done | |].
  - simpl. destruct (have_free_space c) eqn:Hc; [| done]. simpl.
    destruct j as [|j]; simpl in Hj; [congruence |]. by eapply IH.
  - simpl. destruct j as [|j]; simpl in Hj; [done |]. by eapply IH.
Qed.

Lemma collect_alive_all_empty chans : ∀ i acc,
  (∀ j slot, chans !! j = Some slot → slot = None) →
  collect_alive chans i acc = Some acc.
Proof.
  induction chans as [|slot rest IH]; intros i acc Hn; [done |].
  rewrite (Hn 0 slot eq_refl). simpl. apply IH.
  intros j s Hj. by apply (Hn (S j)).
Qed.

Lemma collect_alive_some_open chans :
  (∃ j chan, chans !! j = Some (Some chan)) →
  (∀ j chan, chans !! j = Some (Some chan) → have_free_space chan = true) →
  ∃ p alive, collect_alive chans 0 [] = Some (p :: alive).
Proof.
  intros (j & chan & Hj) Hfree.
  destruct (collect_alive chans 0 []) as [[|p alive]|] eqn:Ha.
  - apply collect_alive_nil in Ha. rewrite Forall_lookup in Ha.
    by specialize (Ha _ _ Hj).
  - by exists p, alive.
  - destruct (collect_alive_None _ _ _ Ha) as (k & c & Hk & Hc).
    rewrite (Hfree _ _ Hk) in Hc. done.
Qed.

(** X12. One run of the loop of [coro_bus_broadcast] for the coroutine
    [self]: when some open channel has no free space it suspends with
    [self] added at the tail of the bus's [broadcast_queue] and nothing
    else changed (no channel receives the message); when no slot is
    occupied it returns -1 with [CORO_BUS_ERR_NO_CHANNEL]; when there are
    open channels and all have free space it returns 0 having done what
    [coro_bus_try_broadcast] does.  It never sets
    [CORO_BUS_ERR_NOT_IMPLEMENTED]. *)
Theorem coro_bus_broadcast_outcomes (self : coro) (w : world) (data : Z) :
  ((∃ j chan, channels (bus w) !! j = Some (Some chan)
              ∧ size_limit chan ≤ length (messages chan)) →
   coro_bus_broadcast self w data = (Suspended, park_on_broadcast self w))
  ∧ ((∀ j slot, channels (bus w) !! j = Some slot → slot = None) →
     coro_bus_broadcast self w data
     = (Returned (-1), coro_bus_errno_set w CORO_BUS_ERR_NO_CHANNEL))
  ∧ ((∃ j chan, channels (bus w) !! j = Some (Some chan)) →
     (∀ j chan, channels (bus w) !! j = Some (Some chan) →
                length (messages chan) < size_limit chan) →
     coro_bus_broadcast self w data
     = (Returned 0, (coro_bus_try_broadcast w data).2)
     ∧ (coro_bus_try_broadcast w data).1 = 0%Z)
  ∧ (global_error w ≠ CORO_BUS_ERR_NOT_IMPLEMENTED →
     global_error (coro_bus_broadcast self w data).2 ≠ CORO_BUS_ERR_NOT_IMPLEMENTED).
Proof.
  unfold coro_bus_broadcast, coro_bus_try_broadcast.
  split; [| split; [| split]].
  - intros (j & chan & Hj & Hfull).
    rewrite (collect_alive_full _ 0 [] j chan Hj)
      by (unfold have_free_space; by apply Nat.ltb_ge).
    done.
  - intros Hnone. by rewrite collect_alive_all_empty.
  - intros Hopen Hfree.
    destruct (collect_alive_some_open (channels (bus w)) Hopen) as (p & alive & ->).
    { intros j chan Hj. unfold have_free_space. apply Nat.ltb_lt. by eapply Hfree. }
    done.
  - intros Herr.
    destruct (collect_alive (channels (bus w)) 0 []) as [[|p alive]|] eqn:Ha;
      simpl; [done | | done].
    assert (coro_bus_try_broadcast w data
            = (0%Z, fold_left (broadcast_to data) (p :: alive) w)) as Heq
      by (unfold coro_bus_try_broadcast; by rewrite Ha).
    rewrite try_broadcast_eq, Ha in Heq. injection Heq as <-. done.
Qed.

Example broadcast_blocking_examples :
  coro_bus_broadcast 7 world_two 99 = (Suspended, park_on_broadcast 7 world_two)
  ∧ broadcast_queue (bus (coro_bus_broadcast 7 world_two 99).2) = [21; 22; 7]
  ∧ channels (bus (coro_bus_broadcast 7 world_two 99).2) = channels (bus world_two)
  ∧ (coro_bus_broadcast 7 new_world 99).1 = Returned (-1)
  ∧ (coro_bus_broadcast 7 world_vec 99).1 = Returned 0.
Proof. repeat split. Qed.

(** ** Blocking vectorised send and receive *)

(** X13. One run of the loops of [coro_bus_send_v] and [coro_bus_recv_v]
    (counts below 2^31): a missing channel gives -1 with
    [CORO_BUS_ERR_NO_CHANNEL]; otherwise the call returns exactly when its
    try-form transfers at least one message, with that count; when nothing
    can be transferred it suspends with [self] at the tail of the channel's
    [send_queue] (send) or [recv_queue] (receive).  In particular a call
    with a count of 0 on an existing channel always suspends, even when the
    channel has free space or holds messages. *)
Theorem coro_bus_send_v_recv_v_outcomes (self : coro) (w : world) (channel : Z) :
  (get_chanel_from (bus w) channel = None →
   (∀ data count,
      coro_bus_send_v self w channel data count
      = (Returned (-1), coro_bus_errno_set w CORO_BUS_ERR_NO_CHANNEL))
   ∧ (∀ capacity,
        coro_bus_recv_v self w channel capacity
        = (Returned (-1), [], coro_bus_errno_set w CORO_BUS_ERR_NO_CHANNEL)))
  ∧ (∀ chan, get_chanel_from (bus w) channel = Some chan →
       (∀ data count,
          (Z.of_nat count < 2 ^ 31)%Z →
          let k := count `min` (size_limit chan - length (messages chan)) in
          coro_bus_send_v self w channel data count
          = if k =? 0 then (Suspended, park_on_send self w channel chan)
            else (Returned (Z.of_nat k),
                  (coro_bus_try_send_v w channel data count).2))
       ∧ (∀ capacity,
            (Z.of_nat capacity < 2 ^ 31)%Z →
            let k := capacity `min` length (messages chan) in
            coro_bus_recv_v self w channel capacity
            = if k =? 0 then (Suspended, [], park_on_recv self w channel chan)
              else (Returned (Z.of_nat k), take k (messages chan),
                    (coro_bus_try_recv_v w channel capacity).2))).
Proof.
  split.
  - intros Hc. split.
    + intros data count. unfold coro_bus_send_v, coro_bus_try_send_v. by rewrite Hc.
    + intros capacity. unfold coro_bus_recv_v, coro_bus_try_recv_v. by rewrite Hc.
  - intros chan Hc. split.
    + intros data count Hu k. unfold coro_bus_send_v, coro_bus_try_send_v.
      rewrite Hc, send_v_loop_eq. cbv zeta. cbn [Nat.add]. fold (free_space chan).
      fold (free_space chan) in k. fold k.
      destruct (Nat.eqb_spec k 0) as [Hz|Hnz].
      * rewrite Hz. cbn [take seq fmap list_fmap]. rewrite pushed_nil.
        rewrite store_chan_id by by apply get_chanel_from_Some in Hc as [_ ?].
        cbn. by rewrite Hc, store_chan_park_send.
      * rewrite int_of_size_t_small by lia.
        destruct (Z.ltb_spec 0 (Z.of_nat k)); [done | lia].
    + intros capacity Hu k. unfold coro_bus_recv_v.
      rewrite (try_recv_v_eq _ _ chan) by done. cbv zeta. fold k.
      destruct (Nat.eqb_spec k 0) as [Hz|Hnz].
      * cbn. by rewrite Hc, store_chan_park_recv.
      * rewrite int_of_size_t_small by lia.
        destruct (Z.ltb_spec 0 (Z.of_nat k)); [done | lia].
Qed.

Example vector_blocking_examples :
  coro_bus_send_v 7 world_vec 0 [5; 6]%Z 0 = (Suspended, park_on_send 7 world_vec 0
                                               (mk_channel 3 [] [31; 32; 33] [9%Z]))
  ∧ (coro_bus_recv_v 7 world_vec 0 0).1 = (Suspended, [])
  ∧ (coro_bus_send_v 7 world_vec 0 [5; 6; 7]%Z 3).1 = Returned 2
  ∧ (coro_bus_recv_v 7 world_vec 0 4).1 = (Returned 1, [9%Z]).
Proof. repeat split. Qed.

(** ** Waiters and close *)

(** X14. After [coro_bus_channel_close] of an open channel, every
    coroutine that was parked on that channel has been woken, and a
    blocking send, receive, vectorised send or vectorised receive that it
    re-enters on that descriptor in the resulting world returns -1 with
    [CORO_BUS_ERR_NO_CHANNEL] without suspending again or touching the
    bus. *)
Theorem close_releases_waiters (w : world) (channel : Z) (chan : coro_bus_channel)
    (c : coro) :
  get_chanel_from (bus w) channel = Some chan →
  c ∈ send_queue chan ++ recv_queue chan →
  let w' := coro_bus_channel_close w channel in
  Wakeup c ∈ trace w'
  ∧ (∀ data, coro_bus_send c w' channel data
             = (Returned (-1), coro_bus_errno_set w' CORO_BUS_ERR_NO_CHANNEL))
  ∧ coro_bus_recv c w' channel
    = (Returned (-1), None, coro_bus_errno_set w' CORO_BUS_ERR_NO_CHANNEL)
  ∧ (∀ data count, coro_bus_send_v c w' channel data count
                   = (Returned (-1), coro_bus_errno_set w' CORO_BUS_ERR_NO_CHANNEL))
  ∧ (∀ capacity, coro_bus_recv_v c w' channel capacity
                 = (Returned (-1), [], coro_bus_errno_set w' CORO_BUS_ERR_NO_CHANNEL)).
Proof.
  intros Hc Hin w'.
  assert (get_chanel_from (bus w') channel = None) as Hnone
    by apply get_chanel_from_closed.
  split.
  { subst w'. rewrite (channel_close_present _ _ _ Hc). cbn [trace].
    rewrite !elem_of_app. right.
    apply elem_of_app in Hin as [Hin|Hin]; [left | right; left];
      by apply list_elem_of_fmap_2. }
  split; [intros data; by apply coro_bus_send_absent |].
  split; [by apply coro_bus_recv_absent |].
  split.
  - intros data count. unfold coro_bus_send_v, coro_bus_try_send_v. by rewrite Hnone.
  - intros capacity. unfold coro_bus_recv_v, coro_bus_try_recv_v. by rewrite Hnone.
Qed.

Lemma close_releases_waiters_witness :
  let w' := coro_bus_channel_close world_two 2 in
  Wakeup 13 ∈ trace w'
  ∧ (∀ data, coro_bus_send 13 w' 2 data
             = (Returned (-1), coro_bus_errno_set w' CORO_BUS_ERR_NO_CHANNEL))
  ∧ coro_bus_recv 13 w' 2
    = (Returned (-1), None, coro_bus_errno_set w' CORO_BUS_ERR_NO_CHANNEL)
  ∧ (∀ data count, coro_bus_send_v 13 w' 2 data count
                   = (Returned (-1), coro_bus_errno_set w' CORO_BUS_ERR_NO_CHANNEL))
  ∧ (∀ capacity, coro_bus_recv_v 13 w' 2 capacity
                 = (Returned (-1), [], coro_bus_errno_set w' CORO_BUS_ERR_NO_CHANNEL)).
Proof.
  apply (close_releases_waiters world_two 2 chan_full_2 13 eq_refl).
  simpl. apply list_elem_of_further, list_elem_of_further, list_elem_of_here.
Defined.

(** ** Waiters are served in turn *)

Lemma get_chanel_from_park_send self w channel chan :
  get_chanel_from (bus w) channel = Some chan →
  get_chanel_from (bus (park_on_send self w channel chan)) channel
  = Some (mk_channel (size_limit chan) (send_queue chan ++ [self])
                     (recv_queue chan) (messages chan)).
Proof.
  intros Hc. rewrite <- store_chan_park_send by done.
  by eapply (get_chanel_from_store (coro_bus_errno_set w _)).
Qed.


(** X15. A sender that finds the channel full (queue length equal to the
    capacity, with more messages queued than senders already waiting)
    suspends behind the senders already in [send_queue].  Receiving one
    message per waiting sender and one more wakes exactly those senders and
    then this one, in that order, and when this sender re-enters
    [coro_bus_send] it returns 0 with its message appended to what is left
    of the queue. *)
Theorem parked_sender_served_in_turn (self : coro) (w : world) (channel data : Z)
    (chan : coro_bus_channel) :
  get_chanel_from (bus w) channel = Some chan →
  length (messages chan) = size_limit chan →
  length (send_queue chan) < length (messages chan) →
  let parked := coro_bus_send self w channel data in
  let k := S (length (send_queue chan)) in
  let w2 := (try_recv_seq parked.2 channel k).2 in
  let again := coro_bus_send self w2 channel data in
  parked.1 = Suspended
  ∧ trace w2 = trace w ++ (Wakeup <$> send_queue chan ++ [self])
  ∧ again.1 = Returned 0
  ∧ (messages <$> get_chanel_from (bus again.2) channel)
    = Some (drop k (messages chan) ++ [data])
  ∧ (send_queue <$> get_chanel_from (bus again.2) channel) = Some [].
Proof.
  intros Hc Hfull Hq parked k w2 again. subst again w2 parked.
  rewrite (coro_bus_send_full _ _ _ _ chan) by (done || lia). cbn [fst snd].
  set (chan1 := mk_channel (size_limit chan) (send_queue chan ++ [self])
                           (recv_queue chan) (messages chan)).
  pose proof (get_chanel_from_park_send self w channel chan Hc) as Hc1.
  fold chan1 in Hc1.
  rewrite (try_recv_seq_eq k _ _ chan1) by (done || simpl; lia). cbn [snd].
  set (w2 := store_chan _ _ _ _ _).
  assert (get_chanel_from (bus w2) channel = Some (popped chan1 k)) as Hc2
    by by eapply get_chanel_from_store.
  split; [done |]. split.
  { subst w2. cbn [trace store_chan park_on_send send_queue chan1]. f_equal. f_equal.
    rewrite take_app_le by (rewrite length_app; simpl; lia).
    apply take_ge. rewrite length_app. simpl. lia. }
  rewrite (coro_bus_send_free _ _ _ _ (popped chan1 k))
    by (done || simpl; rewrite length_drop; lia).
  cbn [fst snd]. split; [done |].
  rewrite (try_send_success _ _ _ (popped chan1 k))
    by (done || simpl; rewrite length_drop; lia).
  cbn [snd]. erewrite get_chanel_from_store by done.
  rewrite send_and_wakeup_to_eq. cbn. split; [done |].
  f_equal. apply drop_ge. rewrite length_app. simpl. lia.
Qed.

Lemma parked_sender_served_in_turn_witness :
  let parked := coro_bus_send 7 world_two 2 5 in
  let w2 := (try_recv_seq parked.2 2 2).2 in
  let again := coro_bus_send 7 w2 2 5 in
  parked.1 = Suspended
  ∧ trace w2 = [Wakeup 11; Wakeup 7]
  ∧ again.1 = Returned 0
  ∧ (messages <$> get_chanel_from (bus again.2) 2) = Some [5%Z]
  ∧ (send_queue <$> get_chanel_from (bus again.2) 2) = Some [].
Proof.
  apply (parked_sender_served_in_turn 7 world_two 2 5 chan_full_2);
    [reflexivity | reflexivity | simpl; lia].
Defined.



(** ** Deleting the bus *)

Lemma delete_loop_eq (rest : list (option coro_bus_channel)) : ∀ pre w,
  channels (bus w) = pre ++ rest →
  (Z.of_nat (length (pre ++ rest)) < 2 ^ 31)%Z →
  delete_loop (length rest) (length pre) w
  = {| bus := mk_bus (pre ++ replicate (length rest) None) (broadcast_queue (bus w));
       global_error := global_error w;
       trace := trace w ++ concat (close_events <$> rest) |}.
Proof.
  induction rest as [|slot rest IH]; intros pre w Hw Hlen; cbn [length delete_loop].
  - destruct w as [[chs bq] err tr]. simpl in *. by rewrite Hw, !app_nil_r.
  - assert (channels (bus w) !! length pre = Some slot) as Hl
      by (rewrite Hw; by apply list_lookup_middle).
    rewrite length_app in Hlen. simpl in Hlen.
    rewrite Hl.
    replace (S (length pre)) with (length (pre ++ [None]))
      by (rewrite length_app; simpl; lia).
    destruct slot as [chan|].
    + assert (get_chanel_from (bus w) (Z.of_nat (length pre)) = Some chan) as Hc
        by (apply get_chanel_from_Some; rewrite Nat2Z.id; split; [lia | done]).
      rewrite int_of_size_t_small, (channel_close_present _ _ _ Hc) by lia.
      rewrite (IH (pre ++ [None])).
      * simpl. rewrite <- !app_assoc. done.
      * simpl. rewrite Nat2Z.id, Hw, insert_app_r_alt, Nat.sub_diag by lia.
        simpl. by rewrite <- app_assoc.
      * rewrite !length_app. simpl. lia.
    + rewrite (IH (pre ++ [None]) w).
      * simpl. by rewrite <- !app_assoc.
      * by rewrite Hw, <- app_assoc.
      * rewrite !length_app. simpl. lia.
Qed.

Lemma elem_of_concat {A} (x : A) (ls : list (list A)) (l : list A) :
  l ∈ ls → x ∈ l → x ∈ concat ls.
Proof.
  induction ls as [|l' ls IH]; intros Hl Hx; [by apply elem_of_nil in Hl |].
  simpl. apply elem_of_app. apply elem_of_cons in Hl as [->|Hl]; [by left |].
  right. by apply IH.
Qed.

(** X17. On a table with fewer than 2^31 slots, when the loop of
    [coro_bus_delete] is over no descriptor names a channel any more, the
    table has kept its length, every coroutine that was parked on a channel
    has been woken (channel by channel in index order: its senders, its
    receivers, then one yield), and the broadcast queue and the error code
    are untouched: coroutines parked in [broadcast_queue] are not woken. *)
Theorem coro_bus_delete_closes_all (w : world) :
  (Z.of_nat (length (channels (bus w))) < 2 ^ 31)%Z →
  let w' := coro_bus_delete w in
  (∀ d, get_chanel_from (bus w') d = None)
  ∧ length (channels (bus w')) = length (channels (bus w))
  ∧ trace w' = trace w ++ concat (close_events <$> channels (bus w))
  ∧ (∀ slot c, slot ∈ channels (bus w) → c ∈ chan_waiters slot →
               Wakeup c ∈ trace w')
  ∧ broadcast_queue (bus w') = broadcast_queue (bus w)
  ∧ global_error w' = global_error w.
Proof.
  intros Hlen w'. subst w'. unfold coro_bus_delete.
  pose proof (delete_loop_eq (channels (bus w)) [] w eq_refl Hlen) as Heq.
  cbn [length app] in Heq. rewrite Heq.
  cbn [bus channels trace broadcast_queue global_error app].
  split.
  { intros d. apply get_chanel_from_None. cbn [channels].
    rewrite length_replicate.
    destruct (Z.lt_ge_cases d 0); [by left | right].
    destruct (Z.le_gt_cases (Z.of_nat (length (channels (bus w)))) d); [by left | right].
    apply lookup_replicate_2. lia. }
  split; [apply length_replicate |]. split; [done |]. split; [| done].
  intros slot c Hslot Hc. apply elem_of_app. right.
  apply (elem_of_concat _ _ (close_events slot)); [by apply list_elem_of_fmap_2 |].
  destruct slot as [chan|]; simpl in *; [| by apply elem_of_nil in Hc].
  rewrite !elem_of_app. apply elem_of_app in Hc as [Hc|Hc]; [left | right; left];
    by apply list_elem_of_fmap_2.
Qed.

Lemma coro_bus_delete_closes_all_witness :
  let w' := coro_bus_delete world_two in
  (∀ d, get_chanel_from (bus w') d = None)
  ∧ length (channels (bus w')) = length (channels (bus world_two))
  ∧ trace w' = trace world_two ++ concat (close_events <$> channels (bus world_two))
  ∧ (∀ slot c, slot ∈ channels (bus world_two) → c ∈ chan_waiters slot →
               Wakeup c ∈ trace w')
  ∧ broadcast_queue (bus w') = broadcast_queue (bus world_two)
  ∧ global_error w' = global_error world_two.
Proof. apply (coro_bus_delete_closes_all world_two). reflexivity. Defined.

Example coro_bus_delete_example :
  trace (coro_bus_delete world_two) = [Yield; Wakeup 11; Wakeup 12; Wakeup 13; Yield]
  ∧ channels (bus (coro_bus_delete world_two)) = [None; None; None]
  ∧ broadcast_queue (bus (coro_bus_delete world_two)) = [21; 22].
Proof. repeat split. Qed.

(** ** The two source files agree *)

Lemma lift_get_chanel_from (w : Plain.world) (d : Z) :
  get_chanel_from (bus (lift w)) d = Plain.get_chanel_from (Plain.bus w) d.
Proof. done. Qed.

(** X18. On a bus without broadcast waiters, the second file's
    [coro_bus_try_send], [coro_bus_try_recv], [coro_bus_channel_open] and
    [coro_bus_channel_close] return the same values and produce the same
    table, error code and runtime calls as the first file's. *)
Theorem plain_agrees (w : Plain.world) :
  (∀ channel data,
     coro_bus_try_send (lift w) channel data
     = ((Plain.coro_bus_try_send w channel data).1,
        lift (Plain.coro_bus_try_send w channel data).2))
  ∧ (∀ channel,
       coro_bus_try_recv (lift w) channel
       = ((Plain.coro_bus_try_recv w channel).1,
          lift (Plain.coro_bus_try_recv w channel).2))
  ∧ (∀ cap,
       coro_bus_channel_open (lift w) cap
       = ((Plain.coro_bus_channel_open w cap).1,
          lift (Plain.coro_bus_channel_open w cap).2))
  ∧ (∀ channel,
       coro_bus_channel_close (lift w) channel
       = lift (Plain.coro_bus_channel_close w channel)).
Proof.
  split; [| split; [| split]].
  - intros channel data. unfold coro_bus_try_send, Plain.coro_bus_try_send.
    rewrite lift_get_chanel_from.
    destruct (Plain.get_chanel_from (Plain.bus w) channel) as [chan|]; [| done].
    unfold have_free_space.
    destruct (Nat.ltb_spec (length (messages chan)) (size_limit chan)),
             (Nat.leb_spec (size_limit chan) (length (messages chan)));
      try lia; [| done].
    rewrite send_and_wakeup_to_eq. by destruct (recv_queue chan).
  - intros channel. unfold coro_bus_try_recv, Plain.coro_bus_try_recv.
    rewrite lift_get_chanel_from.
    destruct (Plain.get_chanel_from (Plain.bus w) channel) as [chan|] eqn:Hc; [| done].
    destruct (messages chan) as [|v rest] eqn:Hm; [done |].
    rewrite read_and_wakeup_from_eq, Hm. unfold woken_by_read.
    by destruct (send_queue chan).
  - intros cap. unfold coro_bus_channel_open, Plain.coro_bus_channel_open.
    cbn [lift bus channels].
    by destruct (open_scan (Plain.channels (Plain.bus w)) 0 (-1) =? -1)%Z.
  - intros channel. unfold coro_bus_channel_close, Plain.coro_bus_channel_close.
    rewrite lift_get_chanel_from.
    destruct (Plain.get_chanel_from (Plain.bus w) channel) as [chan|]; [| done].
    by rewrite !wakeup_coro_queue_drains.
Qed.

Example plain_examples :
  let w := (Plain.coro_bus_channel_open (Plain.mk_world (Plain.mk_bus []) 
              CORO_BUS_ERR_NONE []) 1).2 in
  (Plain.coro_bus_try_send w 0 7).1 = 0%Z
  ∧ (Plain.coro_bus_try_send (Plain.coro_bus_try_send w 0 7).2 0 8).1 = (-1)%Z
  ∧ (Plain.coro_bus_try_recv (Plain.coro_bus_try_send w 0 7).2 0).1 = (0%Z, Some 7%Z).
Proof. repeat split. Qed.

(** ** Broadcast as sends *)

Lemma length_open_descs chans : ∀ i j,
  length (open_descs chans i) = length (open_descs chans j).
Proof.
  induction chans as [|[c|] rest IH]; intros i j; simpl; [done | |]; auto.
Qed.

Lemma try_send_each_eq (data : Z) (chans : list (option coro_bus_channel)) : ∀ pre w,
  channels (bus w) = pre ++ chans →
  Forall (λ slot, ∀ chan, slot = Some chan → have_free_space chan = true) chans →
  try_send_each w (open_descs chans (length pre)) data
  = (replicate (length (open_descs chans 0)) 0%Z,
     {| bus := mk_bus (pre ++ (push_slot data <$> chans)) (broadcast_queue (bus w));
        global_error := global_error w;
        trace := trace w ++ concat (woken_slot data <$> chans) |}).
Proof.
  induction chans as [|[chan|] rest IH]; intros pre w Hw Hfree; cbn [open_descs].
  - destruct w as [[chs bq] err tr]. simpl in *. by rewrite Hw, !app_nil_r.
  - apply Forall_cons in Hfree as [Hf Hfree]. specialize (Hf chan eq_refl).
    assert (get_chanel_from (bus w) (Z.of_nat (length pre)) = Some chan) as Hc.
    { apply get_chanel_from_Some. rewrite Nat2Z.id, Hw.
      split; [lia | by apply list_lookup_middle]. }
    cbn [try_send_each].
    rewrite (try_send_success _ _ _ chan)
      by (done || by apply Nat.ltb_lt in Hf).
    replace (S (length pre)) with (length (pre ++ [push_slot data (Some chan)]))
      by (rewrite length_app; simpl; lia).
    rewrite IH; [| | done].
    + cbn [length replicate]. rewrite (length_open_descs rest 1 0).
      f_equal. simpl. rewrite <- !app_assoc. done.
    + simpl. rewrite Nat2Z.id, Hw, insert_app_r_alt, Nat.sub_diag by lia.
      simpl. by rewrite <- app_assoc.
  - apply Forall_cons in Hfree as [_ Hfree].
    replace (S (length pre)) with (length (pre ++ [None]))
      by (rewrite length_app; simpl; lia).
    rewrite (IH (pre ++ [None]) w); [| by rewrite Hw, <- app_assoc | done].
    cbn [length]. rewrite (length_open_descs rest 1 0).
    f_equal. simpl. by rewrite <- !app_assoc.
Qed.

(** X19. When [coro_bus_try_broadcast] returns 0, calling
    [coro_bus_try_send] with the same message on every open descriptor, in
    increasing order, from the same initial state returns 0 each time and
    ends in the same state. *)
Theorem try_broadcast_as_try_sends (w : world) (data : Z) :
  (coro_bus_try_broadcast w data).1 = 0%Z →
  try_send_each w (open_descs (channels (bus w)) 0) data
  = (replicate (length (open_descs (channels (bus w)) 0)) 0%Z,
     (coro_bus_try_broadcast w data).2).
Proof.
  rewrite try_broadcast_eq.
  destruct (collect_alive (channels (bus w)) 0 []) as [[|p alive]|] eqn:Ha;
    [done | | done].
  intros _. cbn [snd].
  pose proof (try_send_each_eq data (channels (bus w)) [] w eq_refl
                (collect_alive_Some_free _ _ _ _ Ha)) as Heq.
  cbn [length app] in Heq. by rewrite Heq.
Qed.

Lemma try_broadcast_as_try_sends_witness :
  try_send_each world_vec (open_descs (channels (bus world_vec)) 0) 99
  = (replicate (length (open_descs (channels (bus world_vec)) 0)) 0%Z,
     (coro_bus_try_broadcast world_vec 99).2).
Proof. apply (try_broadcast_as_try_sends world_vec 99). reflexivity. Defined.

(** ** Waiters are neither lost nor invented *)

Lemma woken_of_app (tr1 tr2 : list event) :
  woken_of (tr1 ++ tr2) = woken_of tr1 ++ woken_of tr2.
Proof. apply omap_app. Qed.

Lemma woken_of_Wakeup (l : list coro) : woken_of (Wakeup <$> l) = l.
Proof. unfold woken_of. induction l as [|c l IH]; simpl; [done | by f_equal]. Qed.

Lemma waiters_insert (chans : list (option coro_bus_channel)) : ∀ p slot slot',
  chans !! p = Some slot →
  concat (chan_waiters <$> <[p := slot']> chans) ++ chan_waiters slot
  ≡ₚ concat (chan_waiters <$> chans) ++ chan_waiters slot'.
Proof.
  induction chans as [|s rest IH]; intros p slot slot' Hp; [done |].
  destruct p as [|p]; simpl in *.
  - injection Hp as ->. solve_Permutation.
  - rewrite <- !app_assoc. by rewrite (IH p slot slot').
Qed.

Lemma accounted_store (w : world) (d : Z) chan chan' bq' woken :
  get_chanel_from (bus w) d = Some chan →
  woken_of woken ++ chan_waiters (Some chan') ++ bq'
  ≡ₚ chan_waiters (Some chan) ++ broadcast_queue (bus w) →
  accounted (store_chan w (Z.to_nat d) chan' bq' woken) ≡ₚ accounted w.
Proof.
  intros [_ Hl]%get_chanel_from_Some Hperm.
  unfold accounted, waiters. cbn [store_chan bus trace channels broadcast_queue].
  rewrite woken_of_app.
  pose proof (waiters_insert _ _ _ (Some chan') Hl) as Hins.
  apply (Permutation_app_inv_r (chan_waiters (Some chan))).
  set (C' := concat (chan_waiters <$> <[Z.to_nat d := Some chan']> (channels (bus w))))
    in *.
  set (C := concat (chan_waiters <$> channels (bus w))) in *.
  trans (woken_of (trace w)
         ++ (woken_of woken ++ chan_waiters (Some chan') ++ bq')
         ++ C); [| rewrite Hperm; solve_Permutation].
  trans (woken_of (trace w) ++ woken_of woken ++ bq'
         ++ (C' ++ chan_waiters (Some chan))); [solve_Permutation |].
  rewrite Hins. solve_Permutation.
Qed.

Lemma accounted_errno_set w err : accounted (coro_bus_errno_set w err) = accounted w.
Proof. done. Qed.

Lemma accounted_broadcast (data : Z) (chans : list (option coro_bus_channel)) :
  woken_of (concat (woken_slot data <$> chans))
  ++ concat (chan_waiters <$> (push_slot data <$> chans))
  ≡ₚ concat (chan_waiters <$> chans).
Proof.
  induction chans as [|[chan|] rest IH]; [done | |].
  - cbn [fmap list_fmap concat woken_slot push_slot option_fmap option_map chan_waiters].
    rewrite woken_of_app, send_and_wakeup_to_eq. cbn [fst snd send_queue recv_queue].
    rewrite woken_of_Wakeup, <- IH.
    destruct (recv_queue chan) as [|r rq]; cbn [take tail]; solve_Permutation.
  - cbn [fmap list_fmap concat woken_slot push_slot option_fmap option_map chan_waiters].
    simpl. exact IH.
Qed.

Lemma accounted_run_op (w : world) (o : op) :
  (∀ cap, o = OpChannelOpen cap →
          (Z.of_nat (length (channels (bus w))) < 2 ^ 31 - 1)%Z) →
  accounted (run_op w o) ≡ₚ accounted w.
Proof.
  intros Hopen.
  destruct o as [channel data|channel|data|channel data count|channel capacity
                |cap|channel]; cbn [run_op].
  - unfold coro_bus_try_send.
    destruct (get_chanel_from (bus w) channel) as [chan|] eqn:Hc; [| done].
    destruct (have_free_space chan); cbn [negb]; [| done].
    rewrite send_and_wakeup_to_eq. cbn [snd].
    apply (accounted_store _ _ chan); [done |].
    rewrite woken_of_Wakeup. cbn [chan_waiters send_queue recv_queue].
    destruct (recv_queue chan); cbn [take tail]; solve_Permutation.
  - unfold coro_bus_try_recv.
    destruct (get_chanel_from (bus w) channel) as [chan|] eqn:Hc; [| done].
    destruct (messages chan) eqn:Hm; [done |].
    rewrite read_and_wakeup_from_eq. cbn [snd].
    apply (accounted_store _ _ chan); [done |].
    rewrite woken_of_Wakeup. unfold woken_by_read.
    cbn [chan_waiters send_queue recv_queue].
    destruct (send_queue chan); cbn [take tail]; [| solve_Permutation].
    destruct (broadcast_queue (bus w)); cbn [take tail]; solve_Permutation.
  - rewrite try_broadcast_eq.
    destruct (collect_alive (channels (bus w)) 0 []) as [[|p alive]|]; [done | | done].
    cbn [snd]. unfold accounted, waiters.
    cbn [bus trace channels broadcast_queue]. rewrite woken_of_app.
    pose proof (accounted_broadcast data (channels (bus w))) as Hb.
    rewrite <- !app_assoc, (app_assoc (woken_of (concat _))), Hb. done.
  - unfold coro_bus_try_send_v.
    destruct (get_chanel_from (bus w) channel) as [chan|] eqn:Hc; [| done].
    rewrite send_v_loop_eq. cbv zeta.
    set (k := count `min` free_space chan).
    assert (accounted (store_chan w (Z.to_nat channel)
              (pushed chan ((λ j, data !!! j) <$> seq 0 k)) (broadcast_queue (bus w))
              (Wakeup <$> take k (recv_queue chan))) ≡ₚ accounted w) as Hst.
    { apply (accounted_store _ _ chan); [done |].
      rewrite woken_of_Wakeup. cbn [chan_waiters pushed send_queue recv_queue].
      rewrite length_fmap, length_seq.
      rewrite <- (take_drop k (recv_queue chan)) at 3. solve_Permutation. }
    by destruct (0 + k =? 0); cbn [snd]; rewrite ?accounted_errno_set.
  - unfold coro_bus_try_recv_v.
    destruct (get_chanel_from (bus w) channel) as [chan|] eqn:Hc; [| done].
    rewrite recv_v_loop_eq. cbv zeta.
    set (k := capacity `min` length (messages chan)).
    cbn [broadcast_queue].
    assert (accounted (store_chan w (Z.to_nat channel)
              (mk_channel (size_limit chan) (drop k (send_queue chan))
                 (recv_queue chan) (drop k (messages chan)))
              (drop (k - length (send_queue chan)) (broadcast_queue (bus w)))
              (Wakeup <$> take k (send_queue chan ++ broadcast_queue (bus w))))
            ≡ₚ accounted w) as Hst.
    { apply (accounted_store _ _ chan); [done |].
      rewrite woken_of_Wakeup. cbn [chan_waiters send_queue recv_queue].
      trans (take k (send_queue chan ++ broadcast_queue (bus w))
             ++ drop k (send_queue chan ++ broadcast_queue (bus w))
             ++ recv_queue chan); [rewrite drop_app; solve_Permutation |].
      rewrite app_assoc, take_drop. solve_Permutation. }
    by destruct (0 + k =? 0); cbn [snd]; rewrite ?accounted_errno_set.
  - specialize (Hopen cap eq_refl).
    destruct (highest_empty (channels (bus w))) as [j|] eqn:Hh.
    + rewrite (channel_open_reuse w cap j) by (done || lia). cbn [snd].
      destruct (highest_empty_Some _ _ Hh) as [Hj _].
      unfold accounted, waiters. cbn [bus trace channels broadcast_queue].
      pose proof (waiters_insert _ _ _ (Some (mk_channel cap [] [] [])) Hj) as Hins.
      cbn [chan_waiters send_queue recv_queue app] in Hins.
      rewrite !app_nil_r in Hins. by rewrite Hins.
    + rewrite (channel_open_append w cap) by (done || lia). cbn [snd].
      unfold accounted, waiters. cbn [bus trace channels broadcast_queue].
      rewrite fmap_app, concat_app. simpl. by rewrite !app_nil_r.
  - destruct (get_chanel_from (bus w) channel) as [chan|] eqn:Hc;
      [| by rewrite channel_close_absent].
    rewrite (channel_close_present _ _ _ Hc).
    unfold accounted, waiters. cbn [bus trace channels broadcast_queue].
    apply get_chanel_from_Some in Hc as [_ Hl].
    pose proof (waiters_insert _ _ _ None Hl) as Hins.
    cbn [chan_waiters] in Hins. rewrite app_nil_r in Hins.
    rewrite !woken_of_app, !woken_of_Wakeup, <- Hins.
    unfold woken_of at 2. simpl. solve_Permutation.
Qed.

(** X20. No non-suspending operation loses a waiter or wakes a coroutine
    that was not parked: after the operation, the coroutines woken so far
    together with those still parked on some queue of the bus are, counted
    with multiplicity, the same as before; so a coroutine is removed from a
    queue exactly when it is woken.  (For open, on a table with fewer than
    2^31 - 1 slots.) *)
Theorem waiters_conserved (w : world) (o : op) :
  (∀ cap, o = OpChannelOpen cap →
          (Z.of_nat (length (channels (bus w))) < 2 ^ 31 - 1)%Z) →
  woken_of (trace (run_op w o)) ++ waiters (bus (run_op w o))
  ≡ₚ woken_of (trace w) ++ waiters (bus w).
Proof. apply accounted_run_op. Qed.

Lemma waiters_conserved_witness :
  woken_of (trace (run_op world_two (OpChannelClose 2)))
  ++ waiters (bus (run_op world_two (OpChannelClose 2)))
  ≡ₚ woken_of (trace world_two) ++ waiters (bus world_two).
Proof. apply (waiters_conserved world_two (OpChannelClose 2)). intros cap H. discriminate H. Defined.

Lemma accounted_park (w : world) (d : Z) chan chan' (self : coro) err tr bq' :
  get_chanel_from (bus w) d = Some chan →
  chan_waiters (Some chan') ++ bq'
  ≡ₚ chan_waiters (Some chan) ++ broadcast_queue (bus w) ++ [self] →
  woken_of tr = woken_of (trace w) →
  accounted {| bus := mk_bus (<[Z.to_nat d := Some chan']> (channels (bus w))) bq';
               global_error := err; trace := tr |}
  ≡ₚ accounted w ++ [self].
Proof.
  intros [_ Hl]%get_chanel_from_Some Hperm Htr.
  unfold accounted, waiters. cbn [bus trace channels broadcast_queue]. rewrite Htr.
  pose proof (waiters_insert _ _ _ (Some chan') Hl) as Hins.
  apply (Permutation_app_inv_r (chan_waiters (Some chan))).
  set (C' := concat (chan_waiters <$> <[Z.to_nat d := Some chan']> (channels (bus w))))
    in *.
  set (C := concat (chan_waiters <$> channels (bus w))) in *.
  trans (woken_of (trace w) ++ bq' ++ (C' ++ chan_waiters (Some chan)));
    [solve_Permutation |].
  rewrite Hins.
  trans (woken_of (trace w) ++ C ++ (chan_waiters (Some chan') ++ bq'));
    [solve_Permutation |].
  rewrite Hperm. solve_Permutation.
Qed.

(** X21. A run of [coro_bus_send], [coro_bus_recv] or [coro_bus_broadcast]
    that returns leaves the coroutines woken so far together with those
    parked on the bus the same, counted with multiplicity; a run that
    suspends adds the calling coroutine to them exactly once and changes
    nothing else: a blocking call parks only its caller, and only when it
    suspends. *)
Theorem blocking_parks_only_self (self : coro) (w : world) :
  (∀ channel data,
     let r := coro_bus_send self w channel data in
     accounted r.2 ≡ₚ accounted w ++ parked_by r.1 self)
  ∧ (∀ channel,
       let r := coro_bus_recv self w channel in
       accounted r.2 ≡ₚ accounted w ++ parked_by r.1.1 self)
  ∧ (∀ data,
       let r := coro_bus_broadcast self w data in
       accounted r.2 ≡ₚ accounted w ++ parked_by r.1 self).
Proof.
  split; [| split].
  - intros channel data r. subst r.
    destruct (get_chanel_from (bus w) channel) as [chan|] eqn:Hc.
    2:{ rewrite coro_bus_send_absent by done. simpl. by rewrite app_nil_r. }
    destruct (Nat.lt_ge_cases (length (messages chan)) (size_limit chan)).
    + rewrite (coro_bus_send_free _ _ _ _ chan) by done. cbn [fst snd parked_by].
      rewrite app_nil_r. by apply (accounted_run_op w (OpTrySend channel data)).
    + rewrite (coro_bus_send_full _ _ _ _ chan) by done. cbn [fst snd parked_by].
      apply (accounted_park _ _ chan); [done | | done].
      cbn [chan_waiters send_queue recv_queue]. solve_Permutation.
  - intros channel r. subst r.
    destruct (get_chanel_from (bus w) channel) as [chan|] eqn:Hc.
    2:{ rewrite coro_bus_recv_absent by done. simpl. by rewrite app_nil_r. }
    destruct (messages chan) as [|v rest] eqn:Hm.
    + rewrite (coro_bus_recv_empty _ _ _ chan) by done. cbn [fst snd parked_by].
      apply (accounted_park _ _ chan); [done | | done].
      cbn [chan_waiters send_queue recv_queue]. solve_Permutation.
    + rewrite (coro_bus_recv_ready _ _ _ chan v rest) by done.
      cbn [fst snd parked_by]. rewrite app_nil_r.
      by apply (accounted_run_op w (OpTryRecv channel)).
  - intros data r. subst r. unfold coro_bus_broadcast.
    pose proof (accounted_run_op w (OpTryBroadcast data)) as Hb. cbn [run_op] in Hb.
    unfold coro_bus_try_broadcast in *.
    destruct (collect_alive (channels (bus w)) 0 []) as [[|p alive]|].
    + simpl. by rewrite app_nil_r.
    + cbn [fst snd Z.eqb parked_by] in *. rewrite app_nil_r. by apply Hb.
    + cbn. unfold accounted, waiters. cbn. solve_Permutation.
Qed.

Example blocking_parks_example :
  accounted world_two = [11; 12; 13; 21; 22]
  ∧ accounted (coro_bus_send 7 world_two 2 5).2 = [11; 7; 12; 13; 21; 22]
  ∧ accounted (coro_bus_recv 7 world_two 2).2 = [11; 12; 13; 21; 22]
  ∧ accounted (coro_bus_broadcast 7 world_two 5).2 = [11; 12; 13; 21; 22; 7].
Proof. repeat split. Qed.

(** ** First-in first-out delivery under any schedule *)

(** X22. One sender working through a list of values (retrying each until
    its [coro_bus_try_send] succeeds) and one receiver calling
    [coro_bus_try_recv], interleaved in any order on an existing channel of
    any capacity: at every point the values received so far, followed by
    the channel's queue, followed by the values not yet accepted, are the
    original list.  So values are received in the order sent, none is lost
    and none is duplicated. *)
Theorem fifo_under_any_schedule (channel : Z) (vs : list Z) (schedule : list turn)
    (s : transfer) :
  in_flight channel vs s →
  let s' := fold_left (attempt channel) schedule s in
  (∃ chan, get_chanel_from (bus (now s')) channel = Some chan
           ∧ received s' ++ messages chan ++ pending s' = vs)
  ∧ received s' `prefix_of` vs.
Proof. intros Hs s'. by apply fifo_any_schedule. Qed.

Lemma fifo_under_any_schedule_witness :
  let s' := fold_left (attempt 0)
              [SenderTurn; SenderTurn; ReceiverTurn; ReceiverTurn; SenderTurn;
               ReceiverTurn]
              (mk_transfer [1; 2; 3]%Z [] world_two) in
  (∃ chan, get_chanel_from (bus (now s')) 0 = Some chan
           ∧ received s' ++ messages chan ++ pending s' = [1; 2; 3]%Z)
  ∧ received s' `prefix_of` [1; 2; 3]%Z.
Proof.
  apply (fifo_under_any_schedule 0 [1; 2; 3]%Z).
  exists chan_empty_1. split; reflexivity.
Defined.

Example fifo_schedule_example :
  let s' := fold_left (attempt 0)
              [SenderTurn; SenderTurn; ReceiverTurn; ReceiverTurn; SenderTurn;
               ReceiverTurn]
              (mk_transfer [1; 2; 3]%Z [] world_two) in
  received s' = [1; 2]%Z ∧ pending s' = [3%Z].
Proof. repeat split. Qed.
